(** * A row sorter: shallow embedding of [main.go] and its properties

    The program reads comma-separated lines, gathers them in a buffer and
    sorts the buffer on one field, either with the library's [sort.Slice]
    or with a binary search tree.  Everything below is translated from
    [main.go]; line numbers in comments refer to that file. *)

From Stdlib Require Import List String Ascii ZArith Lia Bool Arith.
From Stdlib Require Import Permutation Sorted.
From Stdlib Require Import Structures.OrderedTypeEx.
Import ListNotations.

Open Scope string_scope.
Open Scope list_scope.

Set Implicit Arguments.

(** ** Fatal conditions and the error monad *)

(** The ways in which the process dies before [output] is reached: the
    calls of [log.Fatal], and the three run-time panics the sorting code
    can raise. *)
Inductive fatal : Type :=
| ColumnMismatch          (* log.Fatal at line 203 *)
| IOFailure               (* log.Fatal(err) after os.ReadDir or os.Open *)
| IndexOutOfRange         (* row[field] with field outside the row *)
| SliceBoundsOutOfRange   (* buff[h:] with h > len(buff) *)
| NilDereference.         (* node.left on a nil node pointer *)

Inductive outcome (A : Type) : Type :=
| Done (a : A)
| Fatal (e : fatal).

Arguments Done {A} a.
Arguments Fatal {A} e.

Definition bind {A B : Type} (m : outcome A) (k : A -> outcome B) : outcome B :=
  match m with
  | Done a => k a
  | Fatal e => Fatal e
  end.

Notation "x <- m ;; k" := (bind m (fun x => k))
  (at level 61, m at next level, right associativity).

(** ** Rows and field access *)

(** A parsed line, [[]string]. *)
Definition Row : Type := list string.

(** [row[field]] for a Go [int] index: a negative index or one past the
    end panics. *)
Definition index (row : Row) (field : Z) : outcome string :=
  if (field <? 0)%Z then Fatal IndexOutOfRange
  else match nth_error row (Z.to_nat field) with
       | Some s => Done s
       | None => Fatal IndexOutOfRange
       end.

(** ** Parsing: [readContent] *)

(** [strings.Split(line, ",")]: the pieces between commas, one more than
    there are commas. *)
Fixpoint Split (line : string) : list string :=
  match line with
  | EmptyString => [EmptyString]
  | String c rest =>
      if Ascii.eqb c ","%char then EmptyString :: Split rest
      else match Split rest with
           | w :: ws => String c w :: ws
           | [] => [String c EmptyString]
           end
  end.

(** The scanning loop of [readContent] (lines 193-206); [lines] are the
    texts the scanner yields, [n] and [content] the loop's variables. *)
Fixpoint scan (lines : list string) (n : nat) (content : list Row)
  : outcome (list Row) :=
  match lines with
  | [] => Done content
  | line :: rest =>
      let row := Split line in
      if String.eqb line "" then Done content
      else
        let n := if Nat.eqb n 0 then List.length row else n in
        if negb (Nat.eqb n (List.length row)) then Fatal ColumnMismatch
        else scan rest n (content ++ [row])
  end.

Definition readContent (readfrom : list string) : outcome (list Row) :=
  scan readfrom 0 [].

(** ** The tree *)

(** A pointer to a [Node]: either nil or a pointer to a node with its data and two
    children. *)
Inductive Node : Type :=
| nilNode
| mkNode (data : Row) (left right : Node).

Record Tree : Type := mkTree { root : Node }.

(** The method [insert] of [Node] (lines 249-265).  The source updates the node in
    place; the embedding returns the updated node. *)
Fixpoint Node_insert (n : Node) (data : Row) (field : Z) : outcome Node :=
  match n with
  | nilNode => Done nilNode
  | mkNode d l r =>
      x <- index data field ;;
      y <- index d field ;;
      if String.leb x y then
        match l with
        | nilNode => Done (mkNode d (mkNode data nilNode nilNode) r)
        | mkNode _ _ _ => l' <- Node_insert l data field ;; Done (mkNode d l' r)
        end
      else
        match r with
        | nilNode => Done (mkNode d l (mkNode data nilNode nilNode))
        | mkNode _ _ _ => r' <- Node_insert r data field ;; Done (mkNode d l r')
        end
  end.

(** The method [insert] of [Tree] (lines 240-247). *)
Definition Tree_insert (t : Tree) (data : Row) (field : Z) : outcome Tree :=
  match root t with
  | nilNode => Done (mkTree (mkNode data nilNode nilNode))
  | mkNode _ _ _ => r <- Node_insert (root t) data field ;; Done (mkTree r)
  end.

(** The method [rewriteTree] of [Node] (lines 267-275), threading the global [sorted]
    it appends to.  The receiver is not checked against nil before
    [node.left] is read. *)
Fixpoint rewriteTree (node : Node) (sorted : list Row) : outcome (list Row) :=
  match node with
  | nilNode => Fatal NilDereference
  | mkNode d l r =>
      s1 <- match l with
            | nilNode => Done sorted
            | mkNode _ _ _ => rewriteTree l sorted
            end ;;
      let s2 := s1 ++ [d] in
      match r with
      | nilNode => Done s2
      | mkNode _ _ _ => rewriteTree r s2
      end
  end.

(** ** The library sort *)

(** The comparator handed to [sort.Slice] (lines 223-228).  The source
    compares [buff[i+h]] and [buff[j+h]], the elements the library
    currently holds at positions [i] and [j] of the slice it sorts. *)
Definition less (reverse : bool) (field : Z) (a b : Row) : outcome bool :=
  if reverse then
    x <- index a field ;; y <- index b field ;; Done (String.ltb y x)
  else
    x <- index a field ;; y <- index b field ;; Done (String.ltb x y).

(** What the [sort] package asks of a comparator: irreflexive, and a
    transitive ordering in both the positive and the negative sense. *)
Record transitive_ordering (lt : Row -> Row -> bool) : Prop := {
  lt_irrefl : forall a, lt a a = false;
  lt_trans : forall a b c, lt a b = true -> lt b c = true -> lt a c = true;
  lt_incomp : forall a b c, lt a b = false -> lt b c = false -> lt a c = false
}.

(** [sort.Slice] is library code; it enters as an interface with its
    documented contract.  When the comparator answers on all elements of
    the slice, the call returns a rearrangement of the slice in which no
    later element is less than an earlier one.  Nothing is promised about
    elements that compare equal, nor about a comparator that panics. *)
Class SliceSorter : Type := {
  sort_Slice : (Row -> Row -> outcome bool) -> list Row -> outcome (list Row);
  sort_Slice_spec :
    forall (lessf : Row -> Row -> outcome bool) (lt : Row -> Row -> bool)
           (x : list Row),
      (forall a b, In a x -> In b x -> lessf a b = Done (lt a b)) ->
      exists y, sort_Slice lessf x = Done y /\ Permutation x y /\
                (transitive_ordering lt ->
                 StronglySorted (fun a b => lt b a = false) y)
}.

(** ** The sort engine: [sortContent] *)

Section Engine.

Context {sorter : SliceSorter}.

(** The tree-sort loop, [for i := h; i < len(buff); i++ { t.insert(buff[i], field) }]. *)
Fixpoint insert_all (t : Tree) (rows : list Row) (field : Z) : outcome Tree :=
  match rows with
  | [] => Done t
  | row :: rest => t' <- Tree_insert t row field ;; insert_all t' rest field
  end.

(** [sortContent] (lines 210-238).  [contentCh] is the sequence of rows
    received from the channel until it is closed; [sorted] is the value of
    the global before the call and the result is its value afterwards. *)
Definition sortContent (contentCh : list Row) (header : bool) (field : Z)
    (reverse : bool) (sortAlgorithm : Z) (sorted : list Row)
  : outcome (list Row) :=
  let buff := fold_left (fun buff line => buff ++ [line]) contentCh [] in
  let h := if header then 1%nat else 0%nat in
  if (sortAlgorithm =? 1)%Z then
    if (List.length buff <? h)%nat then Fatal SliceBoundsOutOfRange
    else
      s <- sort_Slice (less reverse field) (skipn h buff) ;;
      Done (firstn h buff ++ s)
  else if (sortAlgorithm =? 2)%Z then
    t <- insert_all (mkTree nilNode) (skipn h buff) field ;;
    rewriteTree (root t) sorted
  else Done sorted.

(** [main] on the path that reads one input (lines 54-59): the rows of
    [input()] go through [sortContent], and [output] receives the global
    [sorted], which is empty when the program starts. *)
Definition main_input (readfrom : list string) (header : bool) (field : Z)
    (reverse : bool) (sortAlgorithm : Z) : outcome (list Row) :=
  content <- readContent readfrom ;;
  sortContent content header field reverse sortAlgorithm [].

End Engine.

(** ** Auxiliary notions used in the statements *)

(** The row has a field at the configured index. *)
Definition has_field (field : Z) (row : Row) : bool :=
  ((0 <=? field)%Z && (field <? Z.of_nat (List.length row))%Z)%bool.

(** The header offset [h] of [sortContent]. *)
Definition offset (header : bool) : nat := if header then 1%nat else 0%nat.

(** The sort key of a row; the empty string stands in where the row has
    no such field (the code panics there and never sees it). *)
Definition key (field : Z) (row : Row) : string :=
  match index row field with
  | Done s => s
  | Fatal _ => ""
  end.

(** [a[field] <= b[field]] with both fields present. *)
Definition field_leb (field : Z) (a b : Row) : bool :=
  match index a field, index b field with
  | Done x, Done y => String.leb x y
  | _, _ => false
  end.

(** [a[field] < b[field]] with both fields present. *)
Definition field_ltb (field : Z) (a b : Row) : bool :=
  match index a field, index b field with
  | Done x, Done y => String.ltb x y
  | _, _ => false
  end.

(** The order the comparison sort is asked for: ascending, or descending
    when [reverse] is set. *)
Definition in_order (reverse : bool) (field : Z) (a b : Row) : Prop :=
  if reverse then field_leb field b a = true else field_leb field a b = true.

(** Strict version of [in_order]. *)
Definition strictly_in_order (reverse : bool) (field : Z) (a b : Row) : Prop :=
  if reverse then field_ltb field b a = true else field_ltb field a b = true.

(** Every two neighbours of the list are related by [R]. *)
Definition adjacent (R : Row -> Row -> Prop) (l : list Row) : Prop :=
  forall l1 a b l2, l = l1 ++ a :: b :: l2 -> R a b.

(** [x] occurs somewhere before [y] in [l]. *)
Definition occurs_before (x y : Row) (l : list Row) : Prop :=
  exists l1 l2 l3, l = l1 ++ x :: l2 ++ y :: l3.

(** The field count of a line. *)
Definition columns (line : string) : nat := List.length (Split line).

(** The lines in front of the first empty line. *)
Fixpoint until_blank (lines : list string) : list string :=
  match lines with
  | [] => []
  | line :: rest => if String.eqb line "" then [] else line :: until_blank rest
  end.

(** The comparator without its panics. *)
Definition less_key (reverse : bool) (field : Z) (a b : Row) : bool :=
  if reverse then String.ltb (key field b) (key field a)
  else String.ltb (key field a) (key field b).

(** In-order listing of a tree. *)
Fixpoint inorder (n : Node) : list Row :=
  match n with
  | nilNode => []
  | mkNode d l r => inorder l ++ d :: inorder r
  end.

(** The binary-search-tree invariant of the data model: everything to the
    left of a node is [<=] it, everything to the right is [>] it. *)
Fixpoint bst (field : Z) (n : Node) : Prop :=
  match n with
  | nilNode => True
  | mkNode d l r =>
      Forall (fun a => String.leb (key field a) (key field d) = true) (inorder l) /\
      Forall (fun a => String.leb (key field a) (key field d) = false) (inorder r) /\
      bst field l /\ bst field r
  end.

(** Insertion without its panics, creating the node where the source
    does. *)
Fixpoint grow (field : Z) (n : Node) (data : Row) : Node :=
  match n with
  | nilNode => mkNode data nilNode nilNode
  | mkNode d l r =>
      if String.leb (key field data) (key field d)
      then mkNode d (grow field l data) r
      else mkNode d l (grow field r data)
  end.

(** Insertion into an ascending list, in front of the rows with the same
    key. *)
Fixpoint place (field : Z) (x : Row) (l : list Row) : list Row :=
  match l with
  | [] => [x]
  | y :: l' =>
      if String.leb (key field x) (key field y) then x :: l
      else y :: place field x l'
  end.

(** What tree sort computes, as a list function. *)
Definition tree_order (field : Z) (rows : list Row) : list Row :=
  fold_left (fun acc x => place field x acc) rows [].

(** The rows of [l] whose key is [k], in their order in [l]. *)
Definition with_key (field : Z) (k : string) (l : list Row) : list Row :=
  filter (fun r => String.eqb (key field r) k) l.

(** ** Two implementations of the library contract

    Both are insertion sorts over a comparator that may panic.  They
    differ only in where a row goes among the rows it ties with: the
    first keeps tied rows in their original order, the second reverses
    them.  The contract allows either. *)

Fixpoint insert_keeping (lessf : Row -> Row -> outcome bool) (a : Row)
    (l : list Row) : outcome (list Row) :=
  match l with
  | [] => Done [a]
  | b :: l' =>
      c <- lessf b a ;;
      if c then r <- insert_keeping lessf a l' ;; Done (b :: r)
      else Done (a :: l)
  end.

Fixpoint sort_keeping (lessf : Row -> Row -> outcome bool) (l : list Row)
  : outcome (list Row) :=
  match l with
  | [] => Done []
  | a :: l' => s <- sort_keeping lessf l' ;; insert_keeping lessf a s
  end.

Fixpoint insert_swapping (lessf : Row -> Row -> outcome bool) (a : Row)
    (l : list Row) : outcome (list Row) :=
  match l with
  | [] => Done [a]
  | b :: l' =>
      c <- lessf a b ;;
      if c then Done (a :: l)
      else r <- insert_swapping lessf a l' ;; Done (b :: r)
  end.

Fixpoint sort_swapping (lessf : Row -> Row -> outcome bool) (l : list Row)
  : outcome (list Row) :=
  match l with
  | [] => Done []
  | a :: l' => s <- sort_swapping lessf l' ;; insert_swapping lessf a s
  end.

(** ** Directory mode: the goroutines and their channels

    Lines 76-134 and the receive loop of [sortContent], as a transition
    system.  A state holds every goroutine at its current blocking
    operation; a step is one channel operation, one operation on the wait
    group, or the end of the process.  Channels are unbuffered: a send
    and a receive on the same channel happen together.  Nothing ever
    happens on a nil channel.  The goroutine that waits for signals, the
    printing in [readFiles] and the run-time's ending of a process whose
    goroutines are all blocked are left out. *)

Module Pipeline.

(** A channel value: nil, or a channel made by [make]. *)
Inductive chan : Type :=
| nil_chan
| chan_at (id : nat).

(** The goroutines at their blocking points, with their live variables. *)
Inductive goroutine : Type :=
| G_readDir (fnames : chan) (files : list string)
    (* line 85, the names still to send; line 88 when none is left *)
| G_readFiles (fnames lines : chan) (content : list Row)
    (* line 130, the rows still to send; line 122 when none is left *)
| G_forward (ch allLines : chan) (line : option Row)
    (* line 105 when empty-handed, line 106 when holding a row *)
| G_wgDone                      (* line 108 *)
| G_wait (allLines : chan)      (* line 112 *)
| G_close (allLines : chan)     (* line 113 *)
| G_main (contentCh : chan) (buff : list Row)   (* line 213 *)
| G_sort (buff : list Row)      (* line 217: the buffer is complete *)
| G_fatal (e : fatal)           (* a call of log.Fatal *)
| G_end.

(** What a goroutine is waiting to do, and how it goes on. *)
Inductive offer : Type :=
| SendName (c : chan) (fn : string) (next : goroutine)
| RecvName (c : chan) (next : string -> goroutine) (at_close : goroutine)
| SendLine (c : chan) (line : Row) (next : goroutine)
| RecvLine (c : chan) (next : Row -> goroutine) (at_close : goroutine)
| CloseChan (c : chan) (next : goroutine)
| WgDone (next : goroutine)
| WgWait (next : goroutine)
| Exit
| Idle.

Record world : Type := mkWorld {
  fresh : nat;                (* the next channel [make] returns *)
  pool : list goroutine;
  closed : list nat;          (* the channels closed so far *)
  wg : nat;                   (* the counter of the wait group *)
  exited : bool               (* the process has ended *)
}.

(** ** Setting the goroutines up *)

Definition make (w : world) : chan * world :=
  (chan_at (fresh w),
   mkWorld (S (fresh w)) (pool w) (closed w) (wg w) (exited w)).

Definition go (g : goroutine) (w : world) : world :=
  mkWorld (fresh w) (pool w ++ [g]) (closed w) (wg w) (exited w).

Definition wg_Add (w : world) : world :=
  mkWorld (fresh w) (pool w) (closed w) (S (wg w)) (exited w).

(** [readDir] (lines 76-91); [listing] is what [os.ReadDir] answers. *)
Definition readDir (listing : outcome (list string)) (w : world) : chan * world :=
  let (fnames, w) := make w in
  (fnames,
   go (match listing with
       | Done files => G_readDir fnames files
       | Fatal e => G_fatal e
       end) w).

(** [readFiles] (lines 119-134).  The channel it makes is assigned to its
    own parameter [lines]; nothing is returned to the caller. *)
Definition readFiles (fnames lines : chan) (w : world) : world :=
  let (lines, w) := make w in
  go (G_readFiles fnames lines []) w.

(** [fileReadinStage] (lines 93-117).  [lines] is a slice of [n] nil
    channels; its elements are passed to [readFiles] and then to the
    forwarders. *)
Definition fileReadinStage (fnames : chan) (n : nat) (w : world) : chan * world :=
  let lines := repeat nil_chan n in
  let (allLines, w) := make w in
  let w := fold_left (fun w ch => readFiles fnames ch w) lines w in
  let w := fold_left (fun w ch => go (G_forward ch allLines None) (wg_Add w)) lines w in
  let w := go (G_wait allLines) w in
  (allLines, w).

(** [main] with the [-d] flag alone (lines 46-58), up to the point where
    it starts receiving in [sortContent]; [n] is the number of readers. *)
Definition main_with (n : nat) (listing : outcome (list string)) : world :=
  let w := mkWorld 0 [] [] 0 false in
  let (contChan, w) := make w in
  let (fnChan, w) := readDir listing w in
  let (contChan, w) := fileReadinStage fnChan n w in
  go (G_main contChan []) w.

(** The source passes 3 (line 53). *)
Definition main_dir (listing : outcome (list string)) : world :=
  main_with 3 listing.

(** Three files of two rows each. *)
Definition three_files (fn : string) : option (list string) :=
  if String.eqb fn "f1" then Some ["a,1"; "b,2"]
  else if String.eqb fn "f2" then Some ["c,3"; "d,4"]
  else if String.eqb fn "f3" then Some ["e,5"; "f,6"]
  else None.

(** ** Steps *)

(** One goroutine of the pool moves from [g] to [g']. *)
Definition one (p : list goroutine) (g g' : goroutine) (p' : list goroutine) : Prop :=
  exists l1 l2, p = l1 ++ g :: l2 /\ p' = l1 ++ g' :: l2.

(** Two goroutines of the pool move together. *)
Definition two (p : list goroutine) (s r s' r' : goroutine)
    (p' : list goroutine) : Prop :=
  (exists l1 l2 l3, p = l1 ++ s :: l2 ++ r :: l3 /\
                    p' = l1 ++ s' :: l2 ++ r' :: l3) \/
  (exists l1 l2 l3, p = l1 ++ r :: l2 ++ s :: l3 /\
                    p' = l1 ++ r' :: l2 ++ s' :: l3).

Section Run.

(** The files that can be opened, with the lines a scanner finds in them. *)
Variable disk : string -> option (list string).

(** [os.Open] followed by [readContent] (lines 123-127). *)
Definition open_and_read (fn : string) : outcome (list Row) :=
  match disk fn with
  | None => Fatal IOFailure
  | Some text => readContent text
  end.

Definition offer_of (g : goroutine) : offer :=
  match g with
  | G_readDir fnames (fn :: rest) => SendName fnames fn (G_readDir fnames rest)
  | G_readDir fnames [] => CloseChan fnames G_end
  | G_readFiles fnames lines (line :: rest) =>
      SendLine lines line (G_readFiles fnames lines rest)
  | G_readFiles fnames lines [] =>
      RecvName fnames
        (fun fn => match open_and_read fn with
                   | Done content => G_readFiles fnames lines content
                   | Fatal e => G_fatal e
                   end)
        G_end
  | G_forward ch allLines None =>
      RecvLine ch (fun line => G_forward ch allLines (Some line)) G_wgDone
  | G_forward ch allLines (Some line) =>
      SendLine allLines line (G_forward ch allLines None)
  | G_wgDone => WgDone G_end
  | G_wait allLines => WgWait (G_close allLines)
  | G_close allLines => CloseChan allLines G_end
  | G_main contentCh buff =>
      RecvLine contentCh (fun line => G_main contentCh (buff ++ [line])) (G_sort buff)
  | G_sort _ => Idle
  | G_fatal _ => Exit
  | G_end => Idle
  end.

Inductive step (w : world) : world -> Prop :=
| step_name s r s' k at_close c fn p' :
    exited w = false ->
    offer_of s = SendName (chan_at c) fn s' ->
    offer_of r = RecvName (chan_at c) k at_close ->
    ~ In c (closed w) ->
    two (pool w) s r s' (k fn) p' ->
    step w (mkWorld (fresh w) p' (closed w) (wg w) false)
| step_line s r s' k at_close c line p' :
    exited w = false ->
    offer_of s = SendLine (chan_at c) line s' ->
    offer_of r = RecvLine (chan_at c) k at_close ->
    ~ In c (closed w) ->
    two (pool w) s r s' (k line) p' ->
    step w (mkWorld (fresh w) p' (closed w) (wg w) false)
| step_name_closed r k at_close c p' :
    exited w = false ->
    offer_of r = RecvName (chan_at c) k at_close ->
    In c (closed w) ->
    one (pool w) r at_close p' ->
    step w (mkWorld (fresh w) p' (closed w) (wg w) false)
| step_line_closed r k at_close c p' :
    exited w = false ->
    offer_of r = RecvLine (chan_at c) k at_close ->
    In c (closed w) ->
    one (pool w) r at_close p' ->
    step w (mkWorld (fresh w) p' (closed w) (wg w) false)
| step_close g g' c p' :
    exited w = false ->
    offer_of g = CloseChan (chan_at c) g' ->
    ~ In c (closed w) ->
    one (pool w) g g' p' ->
    step w (mkWorld (fresh w) p' (c :: closed w) (wg w) false)
| step_wg_done g g' n p' :
    exited w = false ->
    offer_of g = WgDone g' ->
    wg w = S n ->
    one (pool w) g g' p' ->
    step w (mkWorld (fresh w) p' (closed w) n false)
| step_wg_wait g g' p' :
    exited w = false ->
    offer_of g = WgWait g' ->
    wg w = 0%nat ->
    one (pool w) g g' p' ->
    step w (mkWorld (fresh w) p' (closed w) 0 false)
| step_exit g :
    exited w = false ->
    In g (pool w) ->
    offer_of g = Exit ->
    step w (mkWorld (fresh w) (pool w) (closed w) (wg w) true)
| step_send_on_closed g c fn line g' :
    exited w = false ->
    In g (pool w) ->
    offer_of g = SendName (chan_at c) fn g' \/
    offer_of g = SendLine (chan_at c) line g' ->
    In c (closed w) ->
    step w (mkWorld (fresh w) (pool w) (closed w) (wg w) true)
| step_close_again g c g' :
    exited w = false ->
    In g (pool w) ->
    offer_of g = CloseChan c g' ->
    c = nil_chan \/ (exists i, c = chan_at i /\ In i (closed w)) ->
    step w (mkWorld (fresh w) (pool w) (closed w) (wg w) true).

Inductive reachable (w0 : world) : world -> Prop :=
| reach_start : reachable w0 w0
| reach_step w w' : reachable w0 w -> step w w' -> reachable w0 w'.

End Run.

(** What the goroutines can be, short of touching the merged stream [a]:
    the producers work on other channels, the forwarders stand
    empty-handed at a nil channel, the closer waits, and [main] still
    receives into an empty buffer. *)
Definition harmless (a : nat) (g : goroutine) : Prop :=
  match g with
  | G_readDir fnames _ => fnames <> chan_at a
  | G_readFiles _ lines _ => lines <> chan_at a
  | G_forward ch _ line => ch = nil_chan /\ line = None
  | G_wgDone => False
  | G_wait _ => True
  | G_close _ => False
  | G_main contentCh buff => contentCh = chan_at a /\ buff = []
  | G_sort _ => False
  | G_fatal _ => True
  | G_end => True
  end.

Definition starved (a : nat) (w : world) : Prop :=
  Forall (harmless a) (pool w) /\
  In (G_main (chan_at a) []) (pool w) /\
  wg w <> 0%nat /\
  ~ In a (closed w).

End Pipeline.

(** ** Notions for the further properties *)

(** [strings.Join(fields, ",")], the inverse of [Split]. *)
Fixpoint Join (fields : list string) : string :=
  match fields with
  | [] => ""
  | w :: rest =>
      match rest with
      | [] => w
      | _ :: _ => String.append w (String ","%char (Join rest))
      end
  end.

(** The number of commas in a line. *)
Fixpoint commas (line : string) : nat :=
  match line with
  | EmptyString => 0
  | String c rest =>
      if Ascii.eqb c ","%char then S (commas rest) else commas rest
  end.

(** The string holds no comma. *)
Definition comma_free (w : string) : bool := Nat.eqb (commas w) 0.

(** The tree in which every node has only a right child. *)
Fixpoint right_spine (rows : list Row) : Node :=
  match rows with
  | [] => nilNode
  | x :: rest => mkNode x nilNode (right_spine rest)
  end.

(** The number of nodes on the longest path from the root. *)
Fixpoint height (n : Node) : nat :=
  match n with
  | nilNode => 0
  | mkNode _ l r => S (Nat.max (height l) (height r))
  end.

(** ** The emitter: [output] *)

(** The elements of a slice as [fmt] prints them with [%v]: one after the
    other with a space between. *)
Fixpoint spaced (words : list string) : string :=
  match words with
  | [] => ""
  | w :: rest =>
      match rest with
      | [] => w
      | _ :: _ => String.append w (String " "%char (spaced rest))
      end
  end.

(** A row and a collection of rows under [%v]. *)
Definition show_row (row : Row) : string :=
  String.append "[" (String.append (spaced row) "]").

Definition show (text : list Row) : string :=
  String.append "[" (String.append (spaced (map show_row text)) "]").

(** What [output] leaves behind: the file it wrote, with its content, and
    the text on the standard output. *)
Record printed : Type := mkPrinted {
  to_file : option (string * string);
  to_stdout : string
}.

(** [output] (lines 171-183).  [o_passed] is [isFlagPassed("o")] and
    [creatable] tells whether [os.Create] succeeds. *)
Definition output (o_passed : bool) (outputFileName : string) (creatable : bool)
    (text : list Row) : outcome printed :=
  if o_passed then
    if creatable then
      Done (mkPrinted
              (Some (outputFileName, String.append (show text) (String "010"%char "")))
              (String.append "Output is written to file "
                 (String.append outputFileName (String "010"%char ""))))
    else Fatal IOFailure
  else
    Done (mkPrinted None
            (String.append "Result: "
               (String.append (show text) (String "010"%char "")))).

(** ** One input: [input] and the receive loop of [sortContent]

    Lines 159-168 and 213-215 as a transition system.  The goroutine of
    [input] sends the rows of [content] one by one on an unbuffered
    channel and then closes it; [main] receives into [buff] until the
    channel is closed. *)

Module SingleInput.

Record state : Type := mkState {
  pending : list Row;     (* the rows [input] has still to send *)
  closed : bool;          (* [close(lines)] has been called *)
  buff : list Row;        (* the buffer of [sortContent] *)
  receiving : bool        (* [main] is still in its receive loop *)
}.

(** The state in which [input] returns its channel. *)
Definition input (content : list Row) : state := mkState content false [] true.

Inductive step : state -> state -> Prop :=
| hand_over line rest b :
    step (mkState (line :: rest) false b true)
         (mkState rest false (b ++ [line]) true)
| close_lines b r :
    step (mkState [] false b r) (mkState [] true b r)
| leave_loop p b :
    step (mkState p true b true) (mkState p true b false).

Inductive reachable (s0 : state) : state -> Prop :=
| reach_start : reachable s0 s0
| reach_step s s' : reachable s0 s -> step s s' -> reachable s0 s'.

End SingleInput.

(** ** Notions for the further properties of directory mode *)

Module PipelineNotions.

Import Pipeline.

(** The goroutine is the enumerator of [readDir], still at work. *)
Definition is_dir (g : goroutine) : bool :=
  match g with
  | G_readDir _ _ => true
  | _ => false
  end.

(** The number of enumerators at work in a pool. *)
Definition dirs (p : list goroutine) : nat := List.length (filter is_dir p).

(** The names a listing holds. *)
Definition listed (listing : outcome (list string)) : list string :=
  match listing with
  | Done files => files
  | Fatal _ => []
  end.

(** Every goroutine is where the set-up put it: the enumerator sends
    listed names on channel 1, the readers send on channels from 3 on,
    and a goroutine at [log.Fatal] got there through the listing or
    through a listed file. *)
Definition accounted (disk : string -> option (list string))
    (listing : outcome (list string)) (g : goroutine) : Prop :=
  match g with
  | G_readDir c rest => c = chan_at 1 /\ incl rest (listed listing)
  | G_readFiles _ lines _ => exists i, lines = chan_at i /\ (3 <= i)%nat
  | G_fatal e =>
      listing = Fatal e \/
      exists fn, In fn (listed listing) /\ open_and_read disk fn = Fatal e
  | _ => True
  end.

Definition tidy (disk : string -> option (list string))
    (listing : outcome (list string)) (w : world) : Prop :=
  Forall (accounted disk listing) (pool w) /\
  (dirs (pool w) <= 1)%nat /\
  (forall c, In c (closed w) -> c = 1%nat /\ dirs (pool w) = 0%nat) /\
  (exited w = true -> exists e, In (G_fatal e) (pool w)).

(** The part of [tidy] that is about the goroutines and the channels. *)
Definition neat (disk : string -> option (list string))
    (listing : outcome (list string)) (w : world) : Prop :=
  Forall (accounted disk listing) (pool w) /\
  (dirs (pool w) <= 1)%nat /\
  (forall c, In c (closed w) -> c = 1%nat /\ dirs (pool w) = 0%nat).

(** *** Signals *)

(** The signals [handler] tells apart; any other signal is known by the
    name it prints with. *)
Inductive signal : Type :=
| SIGTERM
| SIGINT
| other_signal (name : string).

(** [handler] (lines 62-74): the lines it prints and, when it ends the
    process, the code it gives to [os.Exit].  [fmt.Println] puts a space
    between its two operands. *)
Definition handler (s : signal) : list string * option Z :=
  match s with
  | SIGTERM => (["Got kill signal. "; "Program will terminate now."], Some 0%Z)
  | SIGINT => (["Got CTRL+C signal."; "Closing."], Some 0%Z)
  | other_signal name => ([String.append "Ignoring signal:  " name], None)
  end.

(** The handler ends the process at this signal. *)
Definition ends_process (s : signal) : bool :=
  match snd (handler s) with
  | Some _ => true
  | None => false
  end.

(** What moves the process on: a step of the goroutines of the
    pipeline, or a signal taken by the goroutine that [main] starts
    first (lines 37-44), which hands every signal it receives to
    [handler] for as long as the process runs. *)
Inductive event : Type :=
| Internal
| Signal (s : signal).

Inductive run (disk : string -> option (list string)) (w : world)
  : event -> world -> Prop :=
| run_goroutines w' :
    step disk w w' ->
    run disk w Internal w'
| run_signal s :
    exited w = false ->
    run disk w (Signal s)
        (mkWorld (fresh w) (pool w) (closed w) (wg w) (ends_process s)).

Inductive runs (disk : string -> option (list string)) (w0 : world)
  : world -> Prop :=
| runs_start : runs disk w0 w0
| runs_on w ev w' : runs disk w0 w -> run disk w ev w' -> runs disk w0 w'.

(** The failures that [log.Fatal] reports in directory mode: the
    directory cannot be listed (line 80), a listed file cannot be opened
    (line 125), or the parse of a listed file dies (line 203). *)
Definition read_failure (disk : string -> option (list string))
    (listing : outcome (list string)) (e : fatal) : Prop :=
  listing = Fatal e \/
  exists fn, In fn (listed listing) /\ open_and_read disk fn = Fatal e.

End PipelineNotions.

(** * Properties *)

(** ** The order on strings *)

Module StrOrd.

Lemma leb_ltb (x y : string) : String.leb x y = negb (String.ltb y x).
Proof.
  unfold String.leb, String.ltb.
  rewrite (String.compare_antisym y x).
  destruct (String.compare x y); reflexivity.
Qed.

Lemma ltb_irrefl (x : string) : String.ltb x x = false.
Proof.
  unfold String.ltb.
  assert (E : String.compare x x = Eq) by (apply String_as_OT.cmp_eq; reflexivity).
  rewrite E. reflexivity.
Qed.

Lemma leb_refl (x : string) : String.leb x x = true.
Proof. rewrite leb_ltb, ltb_irrefl. reflexivity. Qed.

Lemma ltb_lt (x y : string) : String.ltb x y = true <-> String_as_OT.lt x y.
Proof.
  rewrite <- String_as_OT.cmp_lt. unfold String.ltb, String_as_OT.cmp.
  destruct (String.compare x y); split; congruence.
Qed.

Lemma ltb_trans (x y z : string) :
  String.ltb x y = true -> String.ltb y z = true -> String.ltb x z = true.
Proof.
  rewrite !ltb_lt. apply String_as_OT.lt_trans.
Qed.

Lemma ltb_leb (x y : string) : String.ltb x y = true -> String.leb x y = true.
Proof.
  intro H. rewrite leb_ltb.
  destruct (String.ltb y x) eqn:E; [|reflexivity].
  pose proof (ltb_trans _ _ _ H E) as C. rewrite ltb_irrefl in C. discriminate.
Qed.

Lemma ltb_total (x y : string) :
  String.ltb x y = false -> String.ltb y x = false -> x = y.
Proof.
  intros H1 H2. apply String.leb_antisym; rewrite leb_ltb.
  - rewrite H2. reflexivity.
  - rewrite H1. reflexivity.
Qed.

Lemma ltb_leb_trans (x y z : string) :
  String.ltb x y = true -> String.leb y z = true -> String.ltb x z = true.
Proof.
  intros H1 H2. rewrite leb_ltb in H2.
  destruct (String.ltb z y) eqn:E; [discriminate|].
  destruct (String.ltb x z) eqn:F; [reflexivity|].
  destruct (String.ltb z x) eqn:G.
  - rewrite (ltb_trans _ _ _ G H1) in E. discriminate.
  - rewrite (ltb_total _ _ F G) in H1. congruence.
Qed.

Lemma leb_ltb_trans (x y z : string) :
  String.leb x y = true -> String.ltb y z = true -> String.ltb x z = true.
Proof.
  intros H1 H2. rewrite leb_ltb in H1.
  destruct (String.ltb y x) eqn:E; [discriminate|].
  destruct (String.ltb x z) eqn:F; [reflexivity|].
  destruct (String.ltb z x) eqn:G.
  - rewrite (ltb_trans _ _ _ H2 G) in E. discriminate.
  - rewrite <- (ltb_total _ _ F G) in H2. congruence.
Qed.

Lemma leb_trans (x y z : string) :
  String.leb x y = true -> String.leb y z = true -> String.leb x z = true.
Proof.
  intros H1 H2. rewrite leb_ltb.
  destruct (String.ltb z x) eqn:E; [|reflexivity].
  pose proof (ltb_leb_trans _ _ _ E H1) as C.
  rewrite leb_ltb, C in H2. discriminate.
Qed.

Lemma leb_false_ltb (x y : string) : String.leb x y = false -> String.ltb y x = true.
Proof. rewrite leb_ltb. destruct (String.ltb y x); simpl; congruence. Qed.

End StrOrd.

(** ** Field access on rows that have the field *)

Lemma index_key (field : Z) (row : Row) :
  has_field field row = true -> index row field = Done (key field row).
Proof.
  unfold has_field, key, index. intro H.
  apply andb_prop in H. destruct H as [H0 H1].
  apply Z.leb_le in H0. apply Z.ltb_lt in H1.
  destruct (field <? 0)%Z eqn:E; [apply Z.ltb_lt in E; lia|].
  destruct (nth_error row (Z.to_nat field)) eqn:N; [reflexivity|].
  apply nth_error_None in N. lia.
Qed.

Lemma field_leb_key (field : Z) (a b : Row) :
  has_field field a = true -> has_field field b = true ->
  field_leb field a b = String.leb (key field a) (key field b).
Proof.
  intros Ha Hb. unfold field_leb.
  rewrite (index_key _ _ Ha), (index_key _ _ Hb). reflexivity.
Qed.

Lemma field_ltb_key (field : Z) (a b : Row) :
  has_field field a = true -> has_field field b = true ->
  field_ltb field a b = String.ltb (key field a) (key field b).
Proof.
  intros Ha Hb. unfold field_ltb.
  rewrite (index_key _ _ Ha), (index_key _ _ Hb). reflexivity.
Qed.

Lemma field_ltb_has_field (field : Z) (a b : Row) :
  field_ltb field a b = true -> has_field field a = true /\ has_field field b = true.
Proof.
  assert (P : forall r s, index r field = Done s -> has_field field r = true).
  { intros r s. unfold index, has_field.
    destruct (field <? 0)%Z eqn:E; [discriminate|].
    apply Z.ltb_ge in E.
    destruct (nth_error r (Z.to_nat field)) eqn:N; [|discriminate].
    intros _. assert (nth_error r (Z.to_nat field) <> None) as L by congruence.
    apply nth_error_Some in L.
    apply andb_true_intro. split; [apply Z.leb_le|apply Z.ltb_lt]; lia. }
  unfold field_ltb.
  destruct (index a field) eqn:Ea; [|discriminate].
  destruct (index b field) eqn:Eb; [|discriminate].
  intros _. split; eapply P; eassumption.
Qed.

Lemma less_less_key (reverse : bool) (field : Z) (a b : Row) :
  has_field field a = true -> has_field field b = true ->
  less reverse field a b = Done (less_key reverse field a b).
Proof.
  intros Ha Hb. unfold less, less_key.
  rewrite (index_key _ _ Ha), (index_key _ _ Hb).
  destruct reverse; reflexivity.
Qed.

Lemma less_key_ordering (reverse : bool) (field : Z) :
  transitive_ordering (less_key reverse field).
Proof.
  split; unfold less_key; destruct reverse; intros.
  - apply StrOrd.ltb_irrefl.
  - apply StrOrd.ltb_irrefl.
  - eapply StrOrd.ltb_trans; eassumption.
  - eapply StrOrd.ltb_trans; eassumption.
  - rewrite <- Bool.negb_true_iff, <- StrOrd.leb_ltb in *.
    eapply StrOrd.leb_trans; eassumption.
  - rewrite <- Bool.negb_true_iff, <- StrOrd.leb_ltb in *.
    eapply StrOrd.leb_trans; eassumption.
Qed.

(** ** The tree against its list view *)

Lemma buffer_drain (contentCh acc : list Row) :
  fold_left (fun buff line => buff ++ [line]) contentCh acc = acc ++ contentCh.
Proof.
  revert acc. induction contentCh as [|line rest IH]; intro acc; simpl.
  - now rewrite app_nil_r.
  - rewrite IH, <- app_assoc. reflexivity.
Qed.

Lemma rewriteTree_inorder (n : Node) :
  forall sorted, n <> nilNode -> rewriteTree n sorted = Done (sorted ++ inorder n).
Proof.
  induction n as [|d l IHl r IHr]; intros sorted Hn; [congruence|].
  cbn [rewriteTree inorder].
  assert (L : match l with
              | nilNode => Done sorted
              | mkNode _ _ _ => rewriteTree l sorted
              end = Done (sorted ++ inorder l)).
  { destruct l; [simpl; now rewrite app_nil_r|apply IHl; discriminate]. }
  rewrite L. cbn [bind].
  destruct r.
  - simpl. now rewrite <- app_assoc.
  - rewrite IHr by discriminate. rewrite <- !app_assoc. reflexivity.
Qed.

Lemma grow_not_nil (field : Z) (n : Node) (x : Row) : grow field n x <> nilNode.
Proof. destruct n; simpl; [|destruct (String.leb _ _)]; discriminate. Qed.

Lemma inorder_grow_perm (field : Z) (x : Row) (n : Node) :
  Permutation (inorder (grow field n x)) (x :: inorder n).
Proof.
  induction n as [|d l IHl r IHr]; simpl; [reflexivity|].
  destruct (String.leb _ _); simpl.
  - rewrite IHl. reflexivity.
  - rewrite IHr.
    replace (inorder l ++ d :: x :: inorder r)
      with ((inorder l ++ [d]) ++ x :: inorder r)
      by (rewrite <- app_assoc; reflexivity).
    rewrite <- Permutation_middle, <- app_assoc. reflexivity.
Qed.

Lemma Node_insert_grow (field : Z) (x : Row) (n : Node) :
  n <> nilNode -> has_field field x = true ->
  Forall (fun a => has_field field a = true) (inorder n) ->
  Node_insert n x field = Done (grow field n x).
Proof.
  induction n as [|d l IHl r IHr]; intros Hn Hx Hall; [congruence|].
  cbn [inorder] in Hall.
  apply Forall_app in Hall. destruct Hall as [Hl Hdr].
  inversion Hdr as [|? ? Hd Hr]; subst.
  cbn [Node_insert grow].
  rewrite (index_key _ _ Hx), (index_key _ _ Hd). cbn [bind].
  destruct (String.leb (key field x) (key field d)).
  - destruct l; [reflexivity|].
    rewrite IHl by (discriminate || assumption). reflexivity.
  - destruct r; [reflexivity|].
    rewrite IHr by (discriminate || assumption). reflexivity.
Qed.

Lemma Tree_insert_grow (field : Z) (x : Row) (t : Tree) :
  has_field field x = true ->
  Forall (fun a => has_field field a = true) (inorder (root t)) ->
  Tree_insert t x field = Done (mkTree (grow field (root t) x)).
Proof.
  intros Hx Hall. unfold Tree_insert.
  destruct (root t) eqn:E; [reflexivity|].
  rewrite Node_insert_grow by (discriminate || assumption). reflexivity.
Qed.

Lemma insert_all_grow (field : Z) (rows : list Row) :
  forall t,
    Forall (fun a => has_field field a = true) rows ->
    Forall (fun a => has_field field a = true) (inorder (root t)) ->
    insert_all t rows field = Done (mkTree (fold_left (grow field) rows (root t))).
Proof.
  induction rows as [|x rest IH]; intros t Hrows Ht; simpl.
  - destruct t; reflexivity.
  - inversion Hrows as [|? ? Hx Hrest]; subst.
    rewrite Tree_insert_grow by assumption. cbn [bind].
    rewrite IH; [reflexivity|assumption|]. simpl.
    eapply Permutation_Forall; [symmetry; apply inorder_grow_perm|].
    constructor; assumption.
Qed.

Lemma fold_grow_not_nil (field : Z) (rows : list Row) :
  forall n, (rows <> [] \/ n <> nilNode) -> fold_left (grow field) rows n <> nilNode.
Proof.
  induction rows as [|x rest IH]; intros n H; simpl.
  - destruct H; congruence.
  - apply IH. right. apply grow_not_nil.
Qed.

(** ** Insertion into the tree is insertion into its in-order listing *)

Lemma place_perm (field : Z) (x : Row) (l : list Row) :
  Permutation (place field x l) (x :: l).
Proof.
  induction l as [|y l IH]; simpl; [reflexivity|].
  destruct (String.leb (key field x) (key field y)); [reflexivity|].
  rewrite IH. apply perm_swap.
Qed.

Lemma place_app_le (field : Z) (x d : Row) (l1 l2 : list Row) :
  String.leb (key field x) (key field d) = true ->
  place field x (l1 ++ d :: l2) = place field x l1 ++ d :: l2.
Proof.
  intro H. induction l1 as [|y l1 IH]; simpl.
  - rewrite H. reflexivity.
  - destruct (String.leb (key field x) (key field y)); [reflexivity|].
    rewrite IH. reflexivity.
Qed.

Lemma place_app_gt (field : Z) (x d : Row) (l1 l2 : list Row) :
  Forall (fun a => String.leb (key field x) (key field a) = false) l1 ->
  String.leb (key field x) (key field d) = false ->
  place field x (l1 ++ d :: l2) = l1 ++ d :: place field x l2.
Proof.
  intros H Hd. induction H as [|y l1 Hy _ IH]; simpl.
  - rewrite Hd. reflexivity.
  - rewrite Hy, IH. reflexivity.
Qed.

Lemma place_last (field : Z) (x : Row) (l : list Row) :
  Forall (fun a => String.leb (key field x) (key field a) = false) l ->
  place field x l = l ++ [x].
Proof.
  intro H. induction H as [|y l Hy _ IH]; simpl; [reflexivity|].
  rewrite Hy, IH. reflexivity.
Qed.

Lemma inorder_grow (field : Z) (x : Row) (n : Node) :
  bst field n -> inorder (grow field n x) = place field x (inorder n).
Proof.
  induction n as [|d l IHl r IHr]; simpl; [reflexivity|].
  intros (Hl & Hr & Bl & Br).
  destruct (String.leb (key field x) (key field d)) eqn:E; simpl.
  - rewrite IHl by assumption. symmetry. now apply place_app_le.
  - rewrite IHr by assumption. symmetry. apply place_app_gt; [|assumption].
    eapply Forall_impl; [|exact Hl]. simpl. intros a Ha.
    destruct (String.leb (key field x) (key field a)) eqn:F; [|reflexivity].
    rewrite (StrOrd.leb_trans _ _ _ F Ha) in E. discriminate.
Qed.

Lemma bst_grow (field : Z) (x : Row) (n : Node) :
  bst field n -> bst field (grow field n x).
Proof.
  induction n as [|d l IHl r IHr]; simpl.
  - intros _. repeat split; constructor.
  - intros (Hl & Hr & Bl & Br).
    destruct (String.leb (key field x) (key field d)) eqn:E; simpl;
      repeat split; auto.
    + eapply Permutation_Forall; [symmetry; apply inorder_grow_perm|].
      constructor; assumption.
    + eapply Permutation_Forall; [symmetry; apply inorder_grow_perm|].
      constructor; assumption.
Qed.

Lemma fold_grow_inorder (field : Z) (rows : list Row) :
  forall n, bst field n ->
    bst field (fold_left (grow field) rows n) /\
    inorder (fold_left (grow field) rows n)
    = fold_left (fun acc x => place field x acc) rows (inorder n).
Proof.
  induction rows as [|x rest IH]; intros n B; simpl; [split; auto|].
  rewrite <- inorder_grow by assumption.
  apply IH. now apply bst_grow.
Qed.

(** ** Properties of the list view of tree sort *)

Lemma tree_order_snoc (field : Z) (rows : list Row) (x : Row) :
  tree_order field (rows ++ [x]) = place field x (tree_order field rows).
Proof. unfold tree_order. rewrite fold_left_app. reflexivity. Qed.

Lemma tree_order_perm (field : Z) (rows : list Row) :
  Permutation rows (tree_order field rows).
Proof.
  induction rows as [|x rows IH] using rev_ind; [reflexivity|].
  rewrite tree_order_snoc, place_perm, <- IH.
  symmetry. apply Permutation_cons_append.
Qed.

Lemma place_sorted (field : Z) (x : Row) (l : list Row) :
  StronglySorted (fun a b => String.leb (key field a) (key field b) = true) l ->
  StronglySorted (fun a b => String.leb (key field a) (key field b) = true)
                 (place field x l).
Proof.
  induction 1 as [|y l Hs IH Hy]; simpl.
  - repeat constructor.
  - destruct (String.leb (key field x) (key field y)) eqn:E.
    + constructor; [constructor; assumption|].
      constructor; [assumption|].
      eapply Forall_impl; [|exact Hy]. simpl. intros a Ha.
      eapply StrOrd.leb_trans; eassumption.
    + constructor; [assumption|].
      eapply Permutation_Forall; [symmetry; apply place_perm|].
      constructor; [|assumption].
      apply StrOrd.ltb_leb. now apply StrOrd.leb_false_ltb.
Qed.

Lemma tree_order_sorted (field : Z) (rows : list Row) :
  StronglySorted (fun a b => String.leb (key field a) (key field b) = true)
                 (tree_order field rows).
Proof.
  induction rows as [|x rows IH] using rev_ind; [constructor|].
  rewrite tree_order_snoc. now apply place_sorted.
Qed.

Lemma StronglySorted_snoc_inv (R : Row -> Row -> Prop) (l : list Row) (x : Row) :
  StronglySorted R (l ++ [x]) -> StronglySorted R l /\ Forall (fun a => R a x) l.
Proof.
  induction l as [|y l IH]; simpl; intro H; [split; constructor|].
  inversion H as [|? ? Hs Hy]; subst.
  destruct (IH Hs) as [S1 F1].
  apply Forall_app in Hy. destruct Hy as [Hy1 Hy2].
  inversion Hy2; subst.
  split; constructor; assumption.
Qed.

Lemma tree_order_strict (field : Z) (rows : list Row) :
  StronglySorted (fun a b => String.ltb (key field a) (key field b) = true) rows ->
  tree_order field rows = rows.
Proof.
  induction rows as [|x rows IH] using rev_ind; intro H; [reflexivity|].
  apply StronglySorted_snoc_inv in H. destruct H as [Hs Hx].
  rewrite tree_order_snoc, IH by assumption.
  apply place_last. eapply Forall_impl; [|exact Hx]. simpl. intros a Ha.
  rewrite StrOrd.leb_ltb, Ha. reflexivity.
Qed.

Lemma with_key_place (field : Z) (k : string) (x : Row) (l : list Row) :
  with_key field k (place field x l)
  = if String.eqb (key field x) k then x :: with_key field k l
    else with_key field k l.
Proof.
  unfold with_key. induction l as [|y l IH]; simpl.
  - destruct (String.eqb (key field x) k); reflexivity.
  - destruct (String.leb (key field x) (key field y)) eqn:E; simpl.
    + destruct (String.eqb (key field x) k); reflexivity.
    + rewrite IH.
      destruct (String.eqb (key field x) k) eqn:X; [|reflexivity].
      apply String.eqb_eq in X.
      destruct (String.eqb (key field y) k) eqn:Y; [|reflexivity].
      apply String.eqb_eq in Y.
      rewrite X, Y, StrOrd.leb_refl in E. discriminate.
Qed.

Lemma with_key_tree_order (field : Z) (k : string) (rows : list Row) :
  with_key field k (tree_order field rows) = rev (with_key field k rows).
Proof.
  induction rows as [|x rows IH] using rev_ind; [reflexivity|].
  rewrite tree_order_snoc, with_key_place, IH.
  unfold with_key. rewrite filter_app, rev_app_distr. simpl.
  destruct (String.eqb (key field x) k); reflexivity.
Qed.

Lemma filter_head_inv (p : Row -> bool) (l : list Row) (y : Row) (m : list Row) :
  filter p l = y :: m -> exists l1 l2, l = l1 ++ y :: l2 /\ filter p l2 = m.
Proof.
  induction l as [|z l IH]; simpl; [discriminate|].
  destruct (p z).
  - intro H. inversion H; subst. exists [], l. split; reflexivity.
  - intro H. destruct (IH H) as (l1 & l2 & -> & F).
    exists (z :: l1), l2. split; [reflexivity|assumption].
Qed.

Lemma filter_app_inv (p : Row -> bool) (a : list Row) :
  forall l m, filter p l = a ++ m ->
              exists l1 l2, l = l1 ++ l2 /\ filter p l2 = m.
Proof.
  induction a as [|y a IH]; intros l m H.
  - exists [], l. split; [reflexivity|assumption].
  - simpl in H. apply filter_head_inv in H. destruct H as (l1 & l2 & -> & F).
    destruct (IH _ _ F) as (l3 & l4 & -> & G).
    exists (l1 ++ y :: l3), l4. split; [|assumption].
    rewrite <- app_assoc. reflexivity.
Qed.

Lemma filter_occurs_before (p : Row -> bool) (l a b c : list Row) (y x : Row) :
  filter p l = a ++ y :: b ++ x :: c -> occurs_before y x l.
Proof.
  intro H.
  apply filter_app_inv in H. destruct H as (l1 & l2 & -> & H).
  apply filter_head_inv in H. destruct H as (l3 & l4 & -> & H).
  apply filter_app_inv in H. destruct H as (l5 & l6 & -> & H).
  apply filter_head_inv in H. destruct H as (l7 & l8 & -> & _).
  exists (l1 ++ l3), (l5 ++ l7), l8.
  rewrite <- !app_assoc. reflexivity.
Qed.

Lemma tree_order_ties (field : Z) (x y : Row) (l1 l2 l3 : list Row) :
  key field x = key field y ->
  occurs_before y x (tree_order field (l1 ++ x :: l2 ++ y :: l3)).
Proof.
  intro E.
  pose proof (with_key_tree_order field (key field x) (l1 ++ x :: l2 ++ y :: l3)) as H.
  unfold with_key in H at 2.
  rewrite filter_app in H. simpl in H. rewrite filter_app in H. simpl in H.
  rewrite <- E, String.eqb_refl in H.
  rewrite rev_app_distr in H. simpl in H.
  rewrite rev_app_distr in H. simpl in H.
  rewrite <- !app_assoc in H. simpl in H.
  eapply filter_occurs_before. exact H.
Qed.

(** ** The two implementations meet the contract *)

Section Contract.

Variable lessf : Row -> Row -> outcome bool.
Variable lt : Row -> Row -> bool.

Let R := fun a b : Row => lt b a = false.

Lemma ordering_asym :
  transitive_ordering lt -> forall a b, lt a b = true -> lt b a = false.
Proof.
  intros O a b H. destruct (lt b a) eqn:E; [|reflexivity].
  pose proof (lt_trans O _ _ _ H E) as C.
  rewrite (lt_irrefl O) in C. discriminate.
Qed.

Lemma insert_keeping_spec (a : Row) (l : list Row) :
  (forall u v, In u (a :: l) -> In v (a :: l) -> lessf u v = Done (lt u v)) ->
  exists r, insert_keeping lessf a l = Done r /\ Permutation (a :: l) r /\
            (transitive_ordering lt -> StronglySorted R l -> StronglySorted R r).
Proof.
  induction l as [|b l IH]; intro A; simpl.
  - exists [a]. repeat split; auto. intros. repeat constructor.
  - rewrite (A b a) by (simpl; auto). cbn [bind].
    destruct (lt b a) eqn:E.
    + destruct IH as (r & Hr & Pr & Sr).
      { intros u v Hu Hv. apply A; simpl in *; tauto. }
      rewrite Hr. cbn [bind]. exists (b :: r). split; [reflexivity|]. split.
      * rewrite perm_swap. now constructor.
      * intros O S. inversion S as [|? ? Sl Fl]; subst.
        constructor; [now apply Sr|].
        eapply Permutation_Forall; [exact Pr|].
        constructor; [|assumption]. unfold R. now apply ordering_asym.
    + exists (a :: b :: l). repeat split; auto.
      intros O S. constructor; [assumption|].
      inversion S as [|? ? Sl Fl]; subst.
      constructor; [exact E|].
      eapply Forall_impl; [|exact Fl]. unfold R. intros v Hv.
      eapply (lt_incomp O); eassumption.
Qed.

Lemma insert_swapping_spec (a : Row) (l : list Row) :
  (forall u v, In u (a :: l) -> In v (a :: l) -> lessf u v = Done (lt u v)) ->
  exists r, insert_swapping lessf a l = Done r /\ Permutation (a :: l) r /\
            (transitive_ordering lt -> StronglySorted R l -> StronglySorted R r).
Proof.
  induction l as [|b l IH]; intro A; simpl.
  - exists [a]. repeat split; auto. intros. repeat constructor.
  - rewrite (A a b) by (simpl; auto). cbn [bind].
    destruct (lt a b) eqn:E.
    + exists (a :: b :: l). repeat split; auto.
      intros O S. constructor; [assumption|].
      inversion S as [|? ? Sl Fl]; subst.
      assert (Rab : R a b) by (unfold R; now apply ordering_asym).
      constructor; [exact Rab|].
      eapply Forall_impl; [|exact Fl]. unfold R. intros v Hv.
      eapply (lt_incomp O); eassumption.
    + destruct IH as (r & Hr & Pr & Sr).
      { intros u v Hu Hv. apply A; simpl in *; tauto. }
      rewrite Hr. cbn [bind]. exists (b :: r). split; [reflexivity|]. split.
      * rewrite perm_swap. now constructor.
      * intros O S. inversion S as [|? ? Sl Fl]; subst.
        constructor; [now apply Sr|].
        eapply Permutation_Forall; [exact Pr|].
        constructor; [exact E|assumption].
Qed.

Lemma sort_keeping_spec (x : list Row) :
  (forall a b, In a x -> In b x -> lessf a b = Done (lt a b)) ->
  exists y, sort_keeping lessf x = Done y /\ Permutation x y /\
            (transitive_ordering lt -> StronglySorted R y).
Proof.
  induction x as [|a x IH]; intro A; simpl.
  - exists []. repeat split; auto. intros; constructor.
  - destruct IH as (s & Hs & Ps & Ss).
    { intros u v Hu Hv. apply A; simpl; auto. }
    rewrite Hs. cbn [bind].
    destruct (@insert_keeping_spec a s) as (r & Hr & Pr & Sr).
    { intros u v Hu Hv.
      apply A; eapply Permutation_in;
        try (symmetry; apply (perm_skip a Ps)); assumption. }
    exists r. split; [assumption|]. split.
    + rewrite <- Pr. now constructor.
    + intro O. apply Sr; auto.
Qed.

Lemma sort_swapping_spec (x : list Row) :
  (forall a b, In a x -> In b x -> lessf a b = Done (lt a b)) ->
  exists y, sort_swapping lessf x = Done y /\ Permutation x y /\
            (transitive_ordering lt -> StronglySorted R y).
Proof.
  induction x as [|a x IH]; intro A; simpl.
  - exists []. repeat split; auto. intros; constructor.
  - destruct IH as (s & Hs & Ps & Ss).
    { intros u v Hu Hv. apply A; simpl; auto. }
    rewrite Hs. cbn [bind].
    destruct (@insert_swapping_spec a s) as (r & Hr & Pr & Sr).
    { intros u v Hu Hv.
      apply A; eapply Permutation_in;
        try (symmetry; apply (perm_skip a Ps)); assumption. }
    exists r. split; [assumption|]. split.
    + rewrite <- Pr. now constructor.
    + intro O. apply Sr; auto.
Qed.

End Contract.

Definition keeping_sorter : SliceSorter :=
  {| sort_Slice := sort_keeping; sort_Slice_spec := sort_keeping_spec |}.

Definition swapping_sorter : SliceSorter :=
  {| sort_Slice := sort_swapping; sort_Slice_spec := sort_swapping_spec |}.

(** ** The two modes of [sortContent], characterised *)

Lemma index_without_field (field : Z) (row : Row) :
  has_field field row = false -> index row field = Fatal IndexOutOfRange.
Proof.
  unfold has_field, index. intro H.
  destruct (field <? 0)%Z eqn:E; [reflexivity|].
  apply Z.ltb_ge in E.
  destruct (nth_error row (Z.to_nat field)) eqn:N; [|reflexivity].
  assert (L : nth_error row (Z.to_nat field) <> None) by congruence.
  apply nth_error_Some in L.
  apply andb_false_iff in H. destruct H as [H|H].
  - apply Z.leb_gt in H. lia.
  - apply Z.ltb_ge in H. lia.
Qed.

Lemma index_fatal (field : Z) (row : Row) (e : fatal) :
  index row field = Fatal e -> e = IndexOutOfRange.
Proof.
  unfold index. destruct (field <? 0)%Z; [congruence|].
  destruct (nth_error row (Z.to_nat field)); congruence.
Qed.

Lemma Forall_forallb (field : Z) (rows : list Row) :
  forallb (has_field field) rows = true <->
  Forall (fun a => has_field field a = true) rows.
Proof. rewrite forallb_forall, Forall_forall. reflexivity. Qed.

Lemma insert_all_from (field : Z) (rows : list Row) :
  forall t,
    root t <> nilNode ->
    Forall (fun a => has_field field a = true) (inorder (root t)) ->
    insert_all t rows field
    = if forallb (has_field field) rows
      then Done (mkTree (fold_left (grow field) rows (root t)))
      else Fatal IndexOutOfRange.
Proof.
  induction rows as [|x rest IH]; intros t Ht Hv; simpl.
  - destruct t; reflexivity.
  - destruct (has_field field x) eqn:Hx; simpl.
    + rewrite Tree_insert_grow by assumption. cbn [bind].
      rewrite IH; [reflexivity|apply grow_not_nil|]. simpl.
      eapply Permutation_Forall; [symmetry; apply inorder_grow_perm|].
      constructor; assumption.
    + unfold Tree_insert. destruct (root t) eqn:E; [congruence|].
      cbn [Node_insert]. rewrite (index_without_field _ _ Hx). reflexivity.
Qed.

Lemma insert_all_from_nil (field : Z) (x y : Row) (rest : list Row) :
  insert_all (mkTree nilNode) (x :: y :: rest) field
  = if forallb (has_field field) (x :: y :: rest)
    then Done (mkTree (fold_left (grow field) (x :: y :: rest) nilNode))
    else Fatal IndexOutOfRange.
Proof.
  change (insert_all (mkTree nilNode) (x :: y :: rest) field)
    with (insert_all (mkTree (mkNode x nilNode nilNode)) (y :: rest) field).
  cbn [forallb fold_left grow].
  destruct (has_field field x) eqn:Hx.
  - rewrite insert_all_from; [reflexivity|discriminate|].
    simpl. repeat constructor. assumption.
  - cbn [insert_all Tree_insert root Node_insert andb].
    rewrite (index_without_field _ _ Hx).
    destruct (index y field) as [s|e] eqn:Ey; [reflexivity|].
    rewrite (index_fatal _ _ Ey). reflexivity.
Qed.

Lemma inorder_fold_grow (field : Z) (rows : list Row) :
  inorder (fold_left (grow field) rows nilNode) = tree_order field rows.
Proof. apply (fold_grow_inorder field rows nilNode). exact I. Qed.

Section EngineFacts.

Context {sorter : SliceSorter}.

Lemma sortContent_tree (buff : list Row) (header : bool) (field : Z)
    (reverse : bool) (sorted : list Row) :
  sortContent buff header field reverse 2 sorted
  = match skipn (offset header) buff with
    | [] => Fatal NilDereference
    | [x] => Done (sorted ++ [x])
    | rows =>
        if forallb (has_field field) rows
        then Done (sorted ++ tree_order field rows)
        else Fatal IndexOutOfRange
    end.
Proof.
  unfold sortContent. rewrite buffer_drain. cbn [app Z.eqb].
  change (if header then 1%nat else 0%nat) with (offset header).
  destruct (skipn (offset header) buff) as [|x [|y rest]] eqn:E.
  - reflexivity.
  - reflexivity.
  - rewrite insert_all_from_nil.
    destruct (forallb (has_field field) (x :: y :: rest)); [|reflexivity].
    cbn [bind root].
    rewrite rewriteTree_inorder by (apply fold_grow_not_nil; left; discriminate).
    rewrite inorder_fold_grow. reflexivity.
Qed.

Lemma sortContent_compare (buff : list Row) (header : bool) (field : Z)
    (reverse : bool) (sorted : list Row) :
  sortContent buff header field reverse 1 sorted
  = if (List.length buff <? offset header)%nat then Fatal SliceBoundsOutOfRange
    else s <- sort_Slice (less reverse field) (skipn (offset header) buff) ;;
         Done (firstn (offset header) buff ++ s).
Proof. unfold sortContent. rewrite buffer_drain. reflexivity. Qed.

Lemma sort_Slice_rows (reverse : bool) (field : Z) (rows : list Row) :
  forallb (has_field field) rows = true ->
  exists s, sort_Slice (less reverse field) rows = Done s /\
            Permutation rows s /\
            StronglySorted (fun a b => less_key reverse field b a = false) s.
Proof.
  intro V. rewrite forallb_forall in V.
  destruct (sort_Slice_spec (less reverse field) (less_key reverse field) rows)
    as (s & Hs & Ps & Ss).
  - intros a b Ha Hb. apply less_less_key; auto.
  - exists s. repeat split; auto. apply Ss, less_key_ordering.
Qed.

Lemma sortContent_other (buff : list Row) (header : bool) (field : Z)
    (reverse : bool) (sortAlgorithm : Z) (sorted : list Row) :
  sortAlgorithm <> 1%Z -> sortAlgorithm <> 2%Z ->
  sortContent buff header field reverse sortAlgorithm sorted = Done sorted.
Proof.
  intros H1 H2. unfold sortContent.
  apply Z.eqb_neq in H1. apply Z.eqb_neq in H2. rewrite H1, H2. reflexivity.
Qed.

End EngineFacts.

(** ** Order facts on lists of rows *)

Lemma StronglySorted_weaken (R R' : Row -> Row -> Prop) (l : list Row) :
  (forall a b, In a l -> In b l -> R a b -> R' a b) ->
  StronglySorted R l -> StronglySorted R' l.
Proof.
  intros W S. induction S as [|a l S IH F]; constructor.
  - apply IH. intros u v Hu Hv. apply W; simpl; auto.
  - rewrite Forall_forall in *. intros b Hb.
    apply W; simpl; auto.
Qed.

Lemma StronglySorted_adjacent (R : Row -> Row -> Prop) (l : list Row) :
  StronglySorted R l -> adjacent R l.
Proof.
  intros S l1. revert l S.
  induction l1 as [|c l1 IH]; intros l S a b l2 E; subst l.
  - inversion S as [|? ? _ F]; subst. inversion F; subst. assumption.
  - inversion S as [|? ? S' _]; subst. eapply IH; [exact S'|reflexivity].
Qed.

Lemma in_order_less_key (reverse : bool) (field : Z) (a b : Row) :
  has_field field a = true -> has_field field b = true ->
  less_key reverse field b a = false -> in_order reverse field a b.
Proof.
  intros Ha Hb. unfold less_key, in_order.
  destruct reverse; rewrite field_leb_key by assumption;
    rewrite StrOrd.leb_ltb; intros ->; reflexivity.
Qed.

Lemma strictly_in_order_less_key (reverse : bool) (field : Z) (a b : Row) :
  strictly_in_order reverse field a b -> less_key reverse field a b = true.
Proof.
  unfold strictly_in_order, less_key. destruct reverse; intro H;
    destruct (field_ltb_has_field _ _ _ H) as [H1 H2];
    rewrite field_ltb_key in H by assumption; exact H.
Qed.

Lemma sorted_perm_unique (lt : Row -> Row -> bool) :
  transitive_ordering lt ->
  forall l s,
    Permutation l s ->
    StronglySorted (fun a b => lt a b = true) l ->
    StronglySorted (fun a b => lt b a = false) s ->
    l = s.
Proof.
  intros O l. induction l as [|a l IH]; intros s P Sl Ss.
  - apply Permutation_nil in P. now subst.
  - destruct s as [|b s]; [apply Permutation_sym, Permutation_nil in P; discriminate|].
    inversion Sl as [|? ? Sl' Fl]; subst.
    inversion Ss as [|? ? Ss' Fs]; subst.
    rewrite Forall_forall in Fl, Fs.
    assert (E : a = b).
    { assert (Hb : In b (a :: l))
        by (eapply Permutation_in; [symmetry; exact P|simpl; auto]).
      assert (Ha : In a (b :: s))
        by (eapply Permutation_in; [exact P|simpl; auto]).
      destruct Hb as [Hb|Hb]; [assumption|].
      destruct Ha as [Ha|Ha]; [congruence|].
      specialize (Fl _ Hb). specialize (Fs _ Ha). congruence. }
    subst b. f_equal. apply IH; auto.
    eapply Permutation_cons_inv. exact P.
Qed.

Lemma skipn_firstn_app (n : nat) (l s : list Row) :
  (n <= List.length l)%nat -> skipn n (firstn n l ++ s) = s.
Proof.
  intro H. rewrite skipn_app, firstn_length_le by assumption.
  rewrite Nat.sub_diag, skipn_all2; [reflexivity|].
  rewrite length_firstn. lia.
Qed.

Lemma short_buffer (buff : list Row) (header : bool) :
  (List.length buff <? offset header)%nat = true -> header = true /\ buff = [].
Proof.
  intro H. apply Nat.ltb_lt in H.
  destruct header; simpl in H; [|lia].
  split; [reflexivity|]. destruct buff; [reflexivity|simpl in H; lia].
Qed.

(** ** Properties of the sort engine *)

Section EngineProperties.

Context {sorter : SliceSorter}.

Lemma sortContent_tree_many (buff : list Row) (header : bool) (field : Z)
    (reverse : bool) (sorted : list Row) :
  (2 <= List.length (skipn (offset header) buff))%nat ->
  sortContent buff header field reverse 2 sorted
  = if forallb (has_field field) (skipn (offset header) buff)
    then Done (sorted ++ tree_order field (skipn (offset header) buff))
    else Fatal IndexOutOfRange.
Proof.
  intro L. rewrite sortContent_tree.
  destruct (skipn (offset header) buff) as [|x [|y rest]]; simpl in L; try lia.
  reflexivity.
Qed.

Lemma tree_order_ascending (field : Z) (rows : list Row) :
  forallb (has_field field) rows = true ->
  StronglySorted (fun a b => field_leb field a b = true) (tree_order field rows).
Proof.
  intro V. rewrite forallb_forall in V.
  eapply StronglySorted_weaken; [|apply tree_order_sorted].
  intros a b Ha Hb H.
  rewrite field_leb_key; [exact H| |];
    apply V; apply (Permutation_in _ (Permutation_sym (tree_order_perm field rows)));
    assumption.
Qed.

(** A run of comparison sort on rows that have the field. *)
Lemma comparison_run (buff : list Row) (header : bool) (field : Z)
    (reverse : bool) (sorted : list Row) :
  (offset header <= List.length buff)%nat ->
  forallb (has_field field) (skipn (offset header) buff) = true ->
  exists s,
    sortContent buff header field reverse 1 sorted
    = Done (firstn (offset header) buff ++ s) /\
    Permutation (skipn (offset header) buff) s /\
    StronglySorted (in_order reverse field) s.
Proof.
  intros L V. rewrite sortContent_compare.
  apply Nat.ltb_ge in L. rewrite L.
  destruct (sort_Slice_rows reverse field _ V) as (s & Hs & Ps & Ss).
  rewrite Hs. cbn [bind]. exists s. repeat split; try assumption.
  eapply StronglySorted_weaken; [|exact Ss].
  rewrite forallb_forall in V.
  intros a b Ha Hb. apply in_order_less_key;
    apply V; apply (Permutation_in _ (Permutation_sym Ps)); assumption.
Qed.

(** C2.  Comparison sort, on rows that all have the configured field:
    every two neighbours of the output, the header row left aside when
    header exclusion is set, are in ascending order of the field ([<=] on
    strings), and in descending order ([>=]) when the reverse flag is
    set.  An output is produced on every input but the empty collection
    with header exclusion set. *)
Theorem comparison_sort_orders_neighbours (buff : list Row) (header : bool)
    (field : Z) (reverse : bool) (sorted : list Row) :
  forallb (has_field field) (skipn (offset header) buff) = true ->
  match sortContent buff header field reverse 1 sorted with
  | Done out => adjacent (in_order reverse field) (skipn (offset header) out)
  | Fatal _ => header = true /\ buff = []
  end.
Proof.
  intro V.
  destruct (List.length buff <? offset header)%nat eqn:L.
  - rewrite sortContent_compare, L. now apply short_buffer.
  - apply Nat.ltb_ge in L.
    destruct (comparison_run buff header field reverse sorted L V)
      as (s & Hs & _ & Ss).
    rewrite Hs, skipn_firstn_app by assumption.
    now apply StronglySorted_adjacent.
Qed.

(** C8.  Comparison sort with header exclusion set, on a non-empty
    collection: whatever output is produced starts with the unchanged
    header row; when the other rows all have the configured field, the
    output is the buffer itself with the rows behind the header
    rearranged into order; and the header [id,val] followed by [b,1] and
    [a,2], sorted on field 0, gives [id,val], [a,2], [b,1]. *)
Theorem comparison_sort_keeps_header (hdr : Row) (rest : list Row)
    (field : Z) (reverse : bool) (sorted : list Row) :
  (forall out,
      sortContent (hdr :: rest) true field reverse 1 sorted = Done out ->
      exists rest', out = hdr :: rest') /\
  (forallb (has_field field) rest = true ->
   exists rest',
     sortContent (hdr :: rest) true field reverse 1 sorted = Done (hdr :: rest') /\
     Permutation rest rest' /\
     adjacent (in_order reverse field) rest') /\
  sortContent [["id"; "val"]; ["b"; "1"]; ["a"; "2"]] true 0 false 1 sorted
  = Done [["id"; "val"]; ["a"; "2"]; ["b"; "1"]].
Proof.
  assert (General : forall h r f rv,
    forallb (has_field f) r = true ->
    exists r',
      sortContent (h :: r) true f rv 1 sorted = Done (h :: r') /\
      Permutation r r' /\ adjacent (in_order rv f) r').
  { intros h r f rv V.
    destruct (@comparison_run (h :: r) true f rv sorted) as (s & Hs & Ps & Ss);
      [simpl; lia|exact V|].
    exists s. repeat split; try assumption.
    now apply StronglySorted_adjacent. }
  split; [|split].
  - intros out. rewrite sortContent_compare.
    cbn [List.length offset Nat.ltb Nat.leb skipn firstn].
    destruct (sort_Slice (less reverse field) rest) as [s|e]; cbn [bind app].
    + intro H. inversion H. exists s. reflexivity.
    + discriminate.
  - apply General.
  - destruct (General ["id"; "val"] [["b"; "1"]; ["a"; "2"]] 0%Z false eq_refl)
      as (r' & Hr & Pr & Ar).
    etransitivity; [exact Hr|]. apply Permutation_length_2_inv in Pr.
    destruct Pr as [-> | ->]; [|reflexivity].
    specialize (Ar [] ["b"; "1"] ["a"; "2"] [] eq_refl).
    vm_compute in Ar. discriminate.
Qed.

(** C6.  Tree sort: the reverse flag has no effect on the result, and the
    rows the traversal appends to the result are in ascending order of
    the configured field, every earlier row [<=] every later one.  The
    traversal produces no output only when there is no row to insert or
    when some row lacks the field. *)
Theorem tree_sort_ascending_whatever_reverse (buff : list Row) (header : bool)
    (field : Z) (reverse : bool) (sorted : list Row) :
  sortContent buff header field reverse 2 sorted
  = sortContent buff header field (negb reverse) 2 sorted /\
  match sortContent buff header field reverse 2 sorted with
  | Done out =>
      exists trav, out = sorted ++ trav /\
                   StronglySorted (fun a b => field_leb field a b = true) trav
  | Fatal _ =>
      skipn (offset header) buff = [] \/
      forallb (has_field field) (skipn (offset header) buff) = false
  end.
Proof.
  split; [rewrite !sortContent_tree; reflexivity|].
  rewrite sortContent_tree.
  destruct (skipn (offset header) buff) as [|x [|y rest]] eqn:E; cbv beta iota zeta.
  - left. reflexivity.
  - exists (x :: nil). split; [reflexivity|]. repeat constructor.
  - destruct (forallb (has_field field) (x :: y :: rest)) eqn:V; cbv beta iota.
    + eexists. split; [reflexivity|]. now apply tree_order_ascending.
    + right. reflexivity.
Qed.

(** C10.  Tree sort: when a row [x] stands before a row [y] among the
    rows inserted (the buffer behind the header offset) and both carry
    the same value [k] in the configured field, [y] comes before [x] in
    the traversal output; the rows with key [k] come out in the reverse
    of their insertion order.  The traversal fails only when some row
    lacks the field.  The statement is about the rows inserted and not
    about every row of the buffer: under header exclusion the first row
    of the buffer is not inserted and is not in the output. *)
Theorem tree_sort_reverses_ties (buff : list Row) (header : bool) (field : Z)
    (reverse : bool) (sorted : list Row) (x y : Row) (l1 l2 l3 : list Row)
    (k : string) :
  skipn (offset header) buff = l1 ++ x :: l2 ++ y :: l3 ->
  index x field = Done k ->
  index y field = Done k ->
  match sortContent buff header field reverse 2 sorted with
  | Done out =>
      exists trav,
        out = sorted ++ trav /\
        occurs_before y x trav /\
        with_key field k trav = rev (with_key field k (l1 ++ x :: l2 ++ y :: l3))
  | Fatal _ => forallb (has_field field) (skipn (offset header) buff) = false
  end.
Proof.
  intros E Hx Hy.
  rewrite sortContent_tree_many
    by (rewrite E, !length_app; simpl; rewrite !length_app; simpl; lia).
  destruct (forallb (has_field field) (skipn (offset header) buff));
    cbv beta iota; [|reflexivity].
  rewrite E. eexists. split; [reflexivity|]. split.
  - apply tree_order_ties. unfold key. rewrite Hx, Hy. reflexivity.
  - apply with_key_tree_order.
Qed.

(** X16.  Away from the empty case, both modes rearrange the rows they are
    given: comparison sort the whole buffer, tree sort the rows behind
    the header offset. *)
Theorem sort_engine_permutation (buff : list Row) (header : bool) (field : Z)
    (reverse : bool) (sorted : list Row) :
  forallb (has_field field) (skipn (offset header) buff) = true ->
  skipn (offset header) buff <> [] ->
  (exists out, sortContent buff header field reverse 1 sorted = Done out /\
               Permutation buff out) /\
  (exists out, sortContent buff header field reverse 2 [] = Done out /\
               Permutation (skipn (offset header) buff) out).
Proof.
  intros V N. split.
  - destruct (List.length buff <? offset header)%nat eqn:L.
    + apply short_buffer in L. destruct L as [-> ->]. simpl in N. congruence.
    + apply Nat.ltb_ge in L.
      destruct (comparison_run buff header field reverse sorted L V)
        as (s & Hs & Ps & _).
      eexists. split; [exact Hs|].
      rewrite <- (firstn_skipn (offset header) buff) at 1.
      now apply Permutation_app_head.
  - rewrite sortContent_tree.
    destruct (skipn (offset header) buff) as [|x [|y rest]] eqn:E;
      cbv beta iota zeta; [congruence| |].
    + exists (x :: nil). split; reflexivity.
    + rewrite V. eexists. split; [reflexivity|]. apply tree_order_perm.
Qed.

(** C1.  At a collection that holds only the header row, tree sort with
    header exclusion set should return the input minus that row, the
    empty collection; the traversal is started on the nil root and the
    run dies instead. *)
Theorem tree_sort_header_only_dies (hdr : Row) (field : Z) (reverse : bool)
    (sorted : list Row) :
  sortContent [hdr] true field reverse 2 sorted = Fatal NilDereference.
Proof. rewrite sortContent_tree. reflexivity. Qed.

(** C4.  The empty collection: comparison sort without header exclusion
    returns the empty collection; with header exclusion it dies on the
    slice bound; tree sort dies on the nil root with either setting of
    header exclusion. *)
Theorem empty_input_outcomes (field : Z) (reverse : bool) (sorted : list Row) :
  sortContent [] false field reverse 1 sorted = Done [] /\
  sortContent [] true field reverse 1 sorted = Fatal SliceBoundsOutOfRange /\
  sortContent [] false field reverse 2 sorted = Fatal NilDereference /\
  sortContent [] true field reverse 2 sorted = Fatal NilDereference.
Proof.
  repeat split; try (rewrite sortContent_tree; reflexivity).
  rewrite sortContent_compare. cbn [List.length offset Nat.ltb Nat.leb skipn firstn].
  destruct (sort_Slice_rows reverse field [] eq_refl) as (s & Hs & Ps & _).
  rewrite Hs. apply Permutation_nil in Ps. subst s. reflexivity.
Qed.

(** C5.  With a selector other than 1 and 2 nothing is sorted and nothing
    fails: the global result keeps the value it had before the call.  In
    a run of the program that value is the empty collection, so the
    emitter receives no rows, whatever was read into the buffer. *)
Theorem unsupported_selector_keeps_prior_result (buff : list Row) (header : bool)
    (field : Z) (reverse : bool) (sortAlgorithm : Z) (sorted : list Row)
    (readfrom : list string) :
  sortAlgorithm <> 1%Z -> sortAlgorithm <> 2%Z ->
  sortContent buff header field reverse sortAlgorithm sorted = Done sorted /\
  main_input readfrom header field reverse sortAlgorithm
  = (content <- readContent readfrom ;; Done []).
Proof.
  intros H1 H2. split; [now apply sortContent_other|].
  unfold main_input. destruct (readContent readfrom); cbn [bind]; [|reflexivity].
  now apply sortContent_other.
Qed.

End EngineProperties.

(** ** Sorting what is already sorted *)

Section Idempotence.

Context {sorter : SliceSorter}.

(** C7.  Sorting a collection that is already in order returns it
    unchanged when every row has the configured field and no two rows
    share its value: in comparison-sort mode for the rows behind the
    header offset in the configured direction, and in tree-sort mode for a
    non-empty collection in ascending order without header exclusion,
    whatever the reverse flag. *)
Theorem sorting_strictly_sorted_is_identity (buff : list Row) (field : Z) :
  (forall header reverse sorted,
      (offset header <= List.length buff)%nat ->
      forallb (has_field field) (skipn (offset header) buff) = true ->
      StronglySorted (strictly_in_order reverse field) (skipn (offset header) buff) ->
      sortContent buff header field reverse 1 sorted = Done buff) /\
  (forall reverse,
      buff <> [] ->
      forallb (has_field field) buff = true ->
      StronglySorted (strictly_in_order false field) buff ->
      sortContent buff false field reverse 2 [] = Done buff).
Proof.
  split.
  - intros header reverse sorted L V S.
    rewrite sortContent_compare.
    apply Nat.ltb_ge in L. rewrite L.
    destruct (sort_Slice_rows reverse field _ V) as (s & Hs & Ps & Ss).
    rewrite Hs. cbn [bind].
    rewrite <- (sorted_perm_unique (less_key_ordering reverse field) Ps); auto.
    + rewrite firstn_skipn. reflexivity.
    + eapply StronglySorted_weaken; [|exact S].
      intros a b _ _. apply strictly_in_order_less_key.
  - intros reverse N V S.
    assert (T : tree_order field buff = buff).
    { apply tree_order_strict.
      eapply StronglySorted_weaken; [|exact S].
      intros a b _ _. apply (strictly_in_order_less_key false). }
    rewrite sortContent_tree. cbn [offset skipn].
    destruct buff as [|x [|y rest]]; [congruence|reflexivity|].
    cbv beta iota zeta. rewrite V, T. reflexivity.
Qed.

End Idempotence.

(** ** Parsing *)

Lemma Split_not_nil (line : string) : Split line <> [].
Proof.
  destruct line as [|c rest]; simpl; [discriminate|].
  destruct (Ascii.eqb c ","%char); [discriminate|].
  destruct (Split rest); discriminate.
Qed.

Lemma columns_positive (line : string) : columns line <> 0%nat.
Proof.
  unfold columns. pose proof (Split_not_nil line).
  destruct (Split line); simpl; congruence.
Qed.

Lemma scan_until_blank (lines : list string) :
  forall n content,
    n <> 0%nat ->
    scan lines n content
    = if forallb (fun line => Nat.eqb n (columns line)) (until_blank lines)
      then Done (content ++ map Split (until_blank lines))
      else Fatal ColumnMismatch.
Proof.
  induction lines as [|line rest IH]; intros n content N; simpl.
  - now rewrite app_nil_r.
  - destruct (String.eqb line "") eqn:B; simpl.
    + now rewrite app_nil_r.
    + apply Nat.eqb_neq in N. rewrite N. apply Nat.eqb_neq in N.
      fold (columns line).
      destruct (Nat.eqb n (columns line)); simpl; [|reflexivity].
      rewrite IH by assumption. rewrite <- app_assoc. reflexivity.
Qed.

Section Parsing.

Context {sorter : SliceSorter}.

(** C9.  Parsing one file, where [readfrom] holds the texts the scanner
    delivers, in order: the texts delivered in front of the first empty
    one must all have the field count of the first.  If they do, they
    are the content, split on commas; if one of them does not, the run
    dies and nothing is emitted.  The first empty text ends the parse
    without error and what is delivered behind it is not examined.
    Nothing is said of a line of the file that the scanner does not
    deliver: the loop ends when [s.Scan()] answers false, and [s.Err()]
    is read only in front of the loop (lines 189-191). *)
Theorem readContent_checks_until_blank (readfrom : list string) :
  match until_blank readfrom with
  | [] => readContent readfrom = Done []
  | first :: others =>
      if forallb (fun line => Nat.eqb (columns first) (columns line)) others
      then readContent readfrom = Done (map Split (first :: others))
      else readContent readfrom = Fatal ColumnMismatch /\
           forall header field reverse sortAlgorithm,
             main_input readfrom header field reverse sortAlgorithm
             = Fatal ColumnMismatch
  end.
Proof.
  unfold main_input, readContent.
  destruct readfrom as [|line rest]; simpl; [reflexivity|].
  destruct (String.eqb line "") eqn:B; [reflexivity|].
  fold (columns line). rewrite Nat.eqb_refl. simpl.
  rewrite scan_until_blank by apply columns_positive.
  destruct (forallb _ (until_blank rest)); [reflexivity|].
  split; reflexivity.
Qed.

End Parsing.

(** ** The properties at concrete inputs *)

Lemma comparison_sort_orders_neighbours_witness :
  forallb (has_field 0)
    (skipn (offset false) [["b"; "1"]; ["a"; "2"]; ["c"; "3"]]) = true /\
  match sortContent (sorter := keeping_sorter)
          [["b"; "1"]; ["a"; "2"]; ["c"; "3"]] false 0 true 1 [] with
  | Done out => adjacent (in_order true 0) (skipn (offset false) out)
  | Fatal _ => false = true /\ [["b"; "1"]; ["a"; "2"]; ["c"; "3"]] = []
  end.
Proof.
  split; [reflexivity|].
  apply (@comparison_sort_orders_neighbours keeping_sorter). reflexivity.
Defined.

Lemma comparison_sort_keeps_header_witness :
  forallb (has_field 1) [["b"; "1"]; ["a"; "2"]] = true /\
  exists rest',
    sortContent (sorter := keeping_sorter)
      [["id"; "val"]; ["b"; "1"]; ["a"; "2"]] true 1 true 1 []
    = Done (["id"; "val"] :: rest') /\
    Permutation [["b"; "1"]; ["a"; "2"]] rest' /\
    adjacent (in_order true 1) rest'.
Proof.
  split; [reflexivity|].
  apply (proj1 (proj2 (@comparison_sort_keeps_header keeping_sorter
                         ["id"; "val"] [["b"; "1"]; ["a"; "2"]] 1 true []))).
  reflexivity.
Defined.

Lemma tree_sort_reverses_ties_witness :
  match sortContent (sorter := keeping_sorter)
          [["a"; "1"]; ["b"; "0"]; ["a"; "2"]] false 0 false 2 [] with
  | Done out =>
      exists trav,
        out = [] ++ trav /\
        occurs_before ["a"; "2"] ["a"; "1"] trav /\
        with_key 0 "a" trav
        = rev (with_key 0 "a" ([] ++ ["a"; "1"] :: [["b"; "0"]] ++ ["a"; "2"] :: []))
  | Fatal _ =>
      forallb (has_field 0)
        (skipn (offset false) [["a"; "1"]; ["b"; "0"]; ["a"; "2"]]) = false
  end.
Proof.
  apply (@tree_sort_reverses_ties keeping_sorter
           [["a"; "1"]; ["b"; "0"]; ["a"; "2"]] false 0 false []
           ["a"; "1"] ["a"; "2"] [] [["b"; "0"]] [] "a");
    reflexivity.
Defined.

Lemma unsupported_selector_witness :
  3%Z <> 1%Z /\ 3%Z <> 2%Z /\
  sortContent (sorter := keeping_sorter) [["b"]; ["a"]] false 0 false 3 [["z"]]
  = Done [["z"]] /\
  main_input (sorter := keeping_sorter) ["b"; "a"] false 0 false 3
  = (content <- readContent ["b"; "a"] ;; Done []).
Proof.
  split; [discriminate|]. split; [discriminate|].
  apply (@unsupported_selector_keeps_prior_result keeping_sorter);
    discriminate.
Defined.

Lemma sorting_strictly_sorted_witness :
  sortContent (sorter := swapping_sorter)
    [["id"; "val"]; ["c"; "1"]; ["a"; "2"]] true 0 true 1 []
  = Done [["id"; "val"]; ["c"; "1"]; ["a"; "2"]] /\
  sortContent (sorter := swapping_sorter)
    [["a"; "2"]; ["b"; "1"]; ["c"; "3"]] false 0 true 2 []
  = Done [["a"; "2"]; ["b"; "1"]; ["c"; "3"]].
Proof.
  split.
  - apply (proj1 (@sorting_strictly_sorted_is_identity swapping_sorter
                    [["id"; "val"]; ["c"; "1"]; ["a"; "2"]] 0));
      [simpl; lia|reflexivity|].
    repeat constructor.
  - apply (proj2 (@sorting_strictly_sorted_is_identity swapping_sorter
                    [["a"; "2"]; ["b"; "1"]; ["c"; "3"]] 0));
      [discriminate|reflexivity|].
    repeat constructor.
Defined.

(** Selector 3 on a buffer of two rows: the emitter receives the empty
    collection and not the two unsorted rows. *)
Lemma unsupported_selector_drops_buffer :
  readContent ["b"; "a"] = Done [["b"]; ["a"]] /\
  main_input (sorter := keeping_sorter) ["b"; "a"] false 0 false 3 = Done [] /\
  main_input (sorter := keeping_sorter) ["b"; "a"] false 0 false 3
  <> Done [["b"]; ["a"]].
Proof. repeat split. discriminate. Qed.

(** Two rows with the same key, in order: tree sort swaps them. *)
Lemma tree_sort_swaps_sorted_ties :
  StronglySorted (in_order false 0) [["a"; "1"]; ["a"; "2"]] /\
  sortContent (sorter := keeping_sorter)
    [["a"; "1"]; ["a"; "2"]] false 0 false 2 []
  = Done [["a"; "2"]; ["a"; "1"]] /\
  sortContent (sorter := keeping_sorter)
    [["a"; "1"]; ["a"; "2"]] false 0 false 2 []
  <> Done [["a"; "1"]; ["a"; "2"]].
Proof.
  split; [repeat constructor|]. split; [reflexivity|discriminate].
Qed.

(** A line with one field behind an empty line, after a line with two:
    the parse succeeds. *)
Lemma mismatch_behind_blank_line_passes :
  In "c" ["a,b"; ""; "c"] /\ "c" <> "" /\ columns "c" <> columns "a,b" /\
  readContent ["a,b"; ""; "c"] = Done [["a"; "b"]].
Proof.
  split; [simpl; auto|]. split; [discriminate|]. split; [discriminate|reflexivity].
Qed.

(** Header exclusion set, and a data row with the key of the header row:
    the header row stands before the data row in the buffer, but it is
    not inserted, and the output holds the data row alone. *)
Lemma header_row_tie_is_not_reversed :
  occurs_before ["a"; "h"] ["a"; "1"] [["a"; "h"]; ["a"; "1"]] /\
  index ["a"; "h"] 0 = Done "a" /\
  index ["a"; "1"] 0 = Done "a" /\
  sortContent (sorter := keeping_sorter)
    [["a"; "h"]; ["a"; "1"]] true 0 false 2 []
  = Done [["a"; "1"]] /\
  ~ occurs_before ["a"; "1"] ["a"; "h"] [["a"; "1"]].
Proof.
  split; [exists [], [], []; reflexivity|].
  split; [reflexivity|]. split; [reflexivity|]. split; [reflexivity|].
  intros (l1 & l2 & l3 & E).
  apply (f_equal (@List.length Row)) in E.
  rewrite length_app in E. simpl in E. rewrite length_app in E. simpl in E. lia.
Qed.

(** Further cases in which a second sort changes a sorted collection:
    tree sort of a descending collection with the reverse flag set, tree
    sort with header exclusion, and comparison sort of tied rows under an
    implementation of the library contract that reverses ties. *)
Lemma resorting_changes_order :
  sortContent (sorter := keeping_sorter) [["b"]; ["a"]] false 0 true 2 []
  = Done [["a"]; ["b"]] /\
  sortContent (sorter := keeping_sorter) [["id"]; ["a"]; ["b"]] true 0 false 2 []
  = Done [["a"]; ["b"]] /\
  sortContent (sorter := swapping_sorter) [["a"; "1"]; ["a"; "2"]] false 0 false 1 []
  = Done [["a"; "2"]; ["a"; "1"]] /\
  sortContent (sorter := keeping_sorter) [["a"; "1"]; ["a"; "2"]] false 0 false 1 []
  = Done [["a"; "1"]; ["a"; "2"]].
Proof. repeat split. Qed.

(** The scenarios of plain comparison sort, ascending and descending,
    under any implementation of the library contract. *)
Lemma comparison_sort_scenarios (sorter : SliceSorter) :
  sortContent [["b"; "1"]; ["a"; "2"]; ["c"; "3"]] false 0 false 1 []
  = Done [["a"; "2"]; ["b"; "1"]; ["c"; "3"]] /\
  sortContent [["b"; "1"]; ["a"; "2"]; ["c"; "3"]] false 0 true 1 []
  = Done [["c"; "3"]; ["b"; "1"]; ["a"; "2"]].
Proof.
  assert (U : forall reverse target,
             Permutation target [["b"; "1"]; ["a"; "2"]; ["c"; "3"]] ->
             StronglySorted (fun a b => less_key reverse 0 a b = true) target ->
             sortContent [["b"; "1"]; ["a"; "2"]; ["c"; "3"]] false 0 reverse 1 []
             = Done target).
  { intros reverse target P S.
    rewrite sortContent_compare.
    cbn [List.length offset Nat.ltb Nat.leb skipn firstn].
    destruct (sort_Slice_rows reverse 0 [["b"; "1"]; ["a"; "2"]; ["c"; "3"]] eq_refl)
      as (s & Hs & Ps & Ss).
    etransitivity; [exact (f_equal (fun m => bind m _) Hs)|]. cbn [bind app].
    f_equal. symmetry.
    apply (sorted_perm_unique (less_key_ordering reverse 0));
      [eapply perm_trans; eassumption|assumption|assumption]. }
  split; apply U.
  - apply perm_swap.
  - repeat constructor.
  - apply (Permutation_cons_append [["b"; "1"]; ["a"; "2"]] ["c"; "3"]).
  - repeat constructor.
Qed.

(** * Directory mode: the merged stream is never served *)

Module PipelineFacts.

Import Pipeline.

Lemma one_Forall (P : goroutine -> Prop) p g g' p' :
  one p g g' p' -> Forall P p -> P g /\ (P g' -> Forall P p').
Proof.
  intros (l1 & l2 & -> & ->) F.
  apply Forall_app in F. destruct F as [F1 F2].
  inversion F2; subst. split; [assumption|].
  intro. apply Forall_app. split; [assumption|]. constructor; assumption.
Qed.

Lemma two_Forall (P : goroutine -> Prop) p s r s' r' p' :
  two p s r s' r' p' -> Forall P p -> P s /\ P r /\ (P s' -> P r' -> Forall P p').
Proof.
  intros [(l1 & l2 & l3 & -> & ->)|(l1 & l2 & l3 & -> & ->)] F;
    apply Forall_app in F; destruct F as [F1 F2];
    inversion F2 as [|? ? Px F3]; subst;
    apply Forall_app in F3; destruct F3 as [F3 F4];
    inversion F4 as [|? ? Py F5]; subst;
    (split; [assumption|]); (split; [assumption|]); intros;
    apply Forall_app; (split; [assumption|]); constructor; try assumption;
    apply Forall_app; (split; [assumption|]); constructor; assumption.
Qed.

Lemma one_In p g g' p' (x : goroutine) :
  one p g g' p' -> In x p -> x <> g -> In x p'.
Proof.
  intros (l1 & l2 & -> & ->) I N.
  apply in_app_or in I. apply in_or_app.
  destruct I as [I|[I|I]]; [left; assumption|congruence|right; right; assumption].
Qed.

Lemma two_In p s r s' r' p' (x : goroutine) :
  two p s r s' r' p' -> In x p -> x <> s -> x <> r -> In x p'.
Proof.
  intros [(l1 & l2 & l3 & -> & ->)|(l1 & l2 & l3 & -> & ->)] I Ns Nr;
    apply in_app_or in I; apply in_or_app;
    (destruct I as [I|[I|I]]; [left; assumption|congruence|]);
    right; right;
    apply in_app_or in I; apply in_or_app;
    (destruct I as [I|[I|I]]; [left; assumption|congruence|right; right; assumption]).
Qed.

Section Starvation.

Variable disk : string -> option (list string).

Ltac by_offer H :=
  match type of H with
  | offer_of _ ?g = _ =>
      destruct g as [? [|? ?]|? ? [|? ?]|? ? [?|]| | | | | | |];
      simpl in H; try discriminate H; inversion H; subst; clear H
  end.

Lemma starved_step (a : nat) (w w' : world) :
  starved a w -> step disk w w' -> starved a w'.
Proof.
  intros (F & M & W & C) S.
  inversion S as
    [s r s' k kc c fn p' X Os Or Nc T
    |s r s' k kc c line p' X Os Or Nc T
    |r k kc c p' X Or Ic O
    |r k kc c p' X Or Ic O
    |g g' c p' X Og Nc O
    |g g' n p' X Og Wn O
    |g g' p' X Og W0 O
    |g X Ig Og
    |g c fn line g' X Ig Og Ic
    |g c g' X Ig Og Cc]; subst; unfold starved; cbn [pool wg closed].
  - (* a name goes from the enumerator to a reader *)
    destruct (two_Forall T F) as (Hs & Hr & K).
    by_offer Os. by_offer Or.
    repeat split; auto.
    + apply K; [exact Hs|]. simpl in Hr |- *.
      destruct (open_and_read disk fn); simpl; auto.
    + eapply two_In; [exact T|exact M|discriminate|discriminate].
  - (* a row changes hands: every receiver stands at nil, or is main,
       whose channel no producer sends on *)
    destruct (two_Forall T F) as (Hs & Hr & _).
    by_offer Or; simpl in Hr; destruct Hr as [E1 E2]; try discriminate E1.
    inversion E1; subst.
    by_offer Os; simpl in Hs; [congruence|destruct Hs; discriminate].
  - (* a reader finds the names closed *)
    destruct (one_Forall O F) as (Hr & K).
    by_offer Or.
    repeat split; auto.
    + apply K. exact I.
    + eapply one_In; [exact O|exact M|discriminate].
  - (* a receiver of rows finds its channel closed *)
    destruct (one_Forall O F) as (Hr & _).
    by_offer Or; simpl in Hr; destruct Hr as [E1 E2]; try discriminate E1.
    inversion E1; subst. contradiction.
  - (* a channel is closed *)
    destruct (one_Forall O F) as (Hg & K).
    by_offer Og; simpl in Hg; [|contradiction].
    repeat split; auto.
    + apply K. exact I.
    + eapply one_In; [exact O|exact M|discriminate].
    + simpl. intros [E|E]; [congruence|contradiction].
  - (* a forwarder reports to the wait group *)
    destruct (one_Forall O F) as (Hg & _).
    by_offer Og. simpl in Hg. contradiction.
  - (* the wait is over *)
    contradiction.
  - repeat split; auto.
  - repeat split; auto.
  - repeat split; auto.
Qed.

Lemma starved_reachable (a : nat) (w0 w : world) :
  starved a w0 -> reachable disk w0 w -> starved a w.
Proof.
  intros H R. induction R as [|w w' _ IH S]; [assumption|].
  eapply starved_step; eassumption.
Qed.

End Starvation.

Lemma readFiles_fold (a : nat) (fnames : chan) (lines : list chan) :
  forall w,
    (a < fresh w)%nat -> Forall (harmless a) (pool w) ->
    let w' := fold_left (fun w ch => readFiles fnames ch w) lines w in
    (a < fresh w')%nat /\ Forall (harmless a) (pool w') /\
    closed w' = closed w /\ wg w' = wg w.
Proof.
  induction lines as [|ch lines IH]; intros w L F; simpl; [auto|].
  destruct (IH (readFiles fnames ch w)) as (L' & F' & C' & W').
  - simpl. lia.
  - simpl. apply Forall_app. split; [assumption|].
    constructor; [|constructor]. simpl. intro E. inversion E. lia.
  - repeat split; assumption.
Qed.

Lemma forwarders_fold (a : nat) (allLines : chan) (lines : list chan) :
  forall w,
    Forall (eq nil_chan) lines -> Forall (harmless a) (pool w) ->
    let w' := fold_left (fun w ch => go (G_forward ch allLines None) (wg_Add w))
                        lines w in
    Forall (harmless a) (pool w') /\ closed w' = closed w /\
    wg w' = (wg w + List.length lines)%nat.
Proof.
  induction lines as [|ch lines IH]; intros w N F; simpl; [auto|].
  inversion N as [|? ? E N']; subst.
  destruct (IH (go (G_forward nil_chan allLines None) (wg_Add w))) as (F' & C' & W').
  - assumption.
  - simpl. apply Forall_app. split; [assumption|].
    constructor; [|constructor]. simpl. auto.
  - repeat split; try assumption. rewrite W'. simpl. lia.
Qed.

Lemma main_with_unfold (n : nat) (listing : outcome (list string)) :
  main_with n listing
  = go (G_main (chan_at 2) [])
      (go (G_wait (chan_at 2))
         (fold_left (fun w ch => go (G_forward ch (chan_at 2) None) (wg_Add w))
            (repeat nil_chan n)
            (fold_left (fun w ch => readFiles (chan_at 1) ch w)
               (repeat nil_chan n)
               (mkWorld 3
                  [match listing with
                   | Done files => G_readDir (chan_at 1) files
                   | Fatal e => G_fatal e
                   end] [] 0 false)))).
Proof. reflexivity. Qed.

Lemma main_with_starved (n : nat) (listing : outcome (list string)) :
  n <> 0%nat -> starved 2 (main_with n listing).
Proof.
  intro N. rewrite main_with_unfold.
  match goal with
  | |- context [fold_left ?f ?l ?w] =>
      match w with
      | mkWorld _ _ _ _ _ =>
          destruct (@readFiles_fold 2 (chan_at 1) l w) as (L3 & F3 & C3 & W3);
          [cbn; lia
          |cbn; destruct listing; repeat constructor; cbn; congruence
          |]
      end
  end.
  match goal with
  | |- context [fold_left ?f ?l ?w] =>
      match w with
      | fold_left _ _ _ =>
          destruct (@forwarders_fold 2 (chan_at 2) l w) as (F4 & C4 & W4);
          [clear; induction n; simpl; constructor; auto|exact F3|]
      end
  end.
  unfold starved. cbn [go pool wg closed].
  repeat split.
  - apply Forall_app. split.
    + apply Forall_app. split; [exact F4|]. repeat constructor.
    + repeat constructor.
  - apply in_or_app. right. left. reflexivity.
  - rewrite W4, repeat_length. lia.
  - rewrite C4, C3. cbn. tauto.
Qed.

(** C3.  Directory mode with any number of readers, any directory and
    any files: in every state the program can reach, [main] is still at
    the head of its receive loop with an empty buffer, the merged stream
    is not closed, no forwarder holds a row or has a channel other than
    nil to receive from, and the sort has not started.  The rows of the
    files never reach the merged stream and no output is produced. *)
Theorem directory_mode_starves_the_sort (disk : string -> option (list string))
    (listing : outcome (list string)) (n : nat) (w : world) :
  n <> 0%nat ->
  reachable disk (main_with n listing) w ->
  In (G_main (chan_at 2) []) (pool w) /\
  ~ In 2 (closed w) /\
  (forall buff, ~ In (G_sort buff) (pool w)) /\
  (forall ch allLines line,
      In (G_forward ch allLines line) (pool w) -> ch = nil_chan /\ line = None).
Proof.
  intros N R.
  destruct (starved_reachable (main_with_starved listing N) R) as (F & M & _ & C).
  rewrite Forall_forall in F.
  split; [assumption|]. split; [assumption|]. split.
  - intros buff I. exact (F _ I).
  - intros ch allLines line I. exact (F _ I).
Qed.

(** The readers do get going: in the scenario with three files a reader
    comes to hold the two rows of the first file, which it then offers
    on a channel nobody receives from. *)
Lemma reader_holds_rows :
  reachable three_files (main_dir (Done ["f1"; "f2"; "f3"]))
    (mkWorld 6
       [G_readDir (chan_at 1) ["f2"; "f3"];
        G_readFiles (chan_at 1) (chan_at 3) [["a"; "1"]; ["b"; "2"]];
        G_readFiles (chan_at 1) (chan_at 4) [];
        G_readFiles (chan_at 1) (chan_at 5) [];
        G_forward nil_chan (chan_at 2) None;
        G_forward nil_chan (chan_at 2) None;
        G_forward nil_chan (chan_at 2) None;
        G_wait (chan_at 2);
        G_main (chan_at 2) []]
       [] 3 false).
Proof.
  eapply reach_step; [apply reach_start|].
  eapply (@step_name three_files (main_dir (Done ["f1"; "f2"; "f3"]))
            (G_readDir (chan_at 1) ["f1"; "f2"; "f3"])
            (G_readFiles (chan_at 1) (chan_at 3) [])
            _ _ _ 1 "f1");
    try reflexivity.
  - simpl. tauto.
  - left. exists [], []. eexists. split; reflexivity.
Qed.

Lemma directory_mode_starves_the_sort_witness :
  let w := mkWorld 6
       [G_readDir (chan_at 1) ["f2"; "f3"];
        G_readFiles (chan_at 1) (chan_at 3) [["a"; "1"]; ["b"; "2"]];
        G_readFiles (chan_at 1) (chan_at 4) [];
        G_readFiles (chan_at 1) (chan_at 5) [];
        G_forward nil_chan (chan_at 2) None;
        G_forward nil_chan (chan_at 2) None;
        G_forward nil_chan (chan_at 2) None;
        G_wait (chan_at 2);
        G_main (chan_at 2) []]
       [] 3 false in
  In (G_main (chan_at 2) []) (pool w) /\
  ~ In 2 (closed w) /\
  (forall buff, ~ In (G_sort buff) (pool w)) /\
  (forall ch allLines line,
      In (G_forward ch allLines line) (pool w) -> ch = nil_chan /\ line = None).
Proof.
  intro w.
  apply (@directory_mode_starves_the_sort three_files (Done ["f1"; "f2"; "f3"]) 3 w).
  - discriminate.
  - exact reader_holds_rows.
Defined.

End PipelineFacts.

(** * Further properties of the parser *)

Lemma Join_Split (line : string) : Join (Split line) = line.
Proof.
  induction line as [|c rest IH]; [reflexivity|].
  cbn [Split].
  pose proof (Split_not_nil rest) as N.
  destruct (Ascii.eqb c ","%char) eqn:E.
  - apply Ascii.eqb_eq in E. subst c.
    destruct (Split rest) as [|w ws]; [congruence|].
    cbn [Join] in IH |- *. rewrite IH. reflexivity.
  - destruct (Split rest) as [|w ws]; [congruence|].
    destruct ws as [|v vs]; cbn [Join] in IH |- *.
    + rewrite IH. reflexivity.
    + cbn [String.append]. rewrite IH. reflexivity.
Qed.

Lemma columns_commas (line : string) : columns line = S (commas line).
Proof.
  unfold columns. induction line as [|c rest IH]; [reflexivity|].
  cbn [Split commas]. pose proof (Split_not_nil rest) as N.
  destruct (Ascii.eqb c ","%char).
  - cbn [List.length]. rewrite IH. reflexivity.
  - destruct (Split rest) as [|w ws]; [congruence|]. exact IH.
Qed.

Lemma Split_comma_free (line : string) :
  Forall (fun w => comma_free w = true) (Split line).
Proof.
  induction line as [|c rest IH]; [repeat constructor|].
  cbn [Split]. pose proof (Split_not_nil rest) as N.
  destruct (Ascii.eqb c ","%char) eqn:E.
  - constructor; [reflexivity|assumption].
  - destruct (Split rest) as [|w ws]; [congruence|].
    inversion IH as [|? ? Hw Hws]; subst.
    constructor; [|assumption].
    unfold comma_free in *. cbn [commas]. rewrite E. exact Hw.
Qed.

(** [readContent] in one equation: the lines in front of the first empty
    line, split, if they all have the field count of the first of them. *)
Lemma readContent_cases (readfrom : list string) :
  readContent readfrom
  = if forallb (fun line => Nat.eqb (columns (hd "" readfrom)) (columns line))
               (until_blank readfrom)
    then Done (map Split (until_blank readfrom))
    else Fatal ColumnMismatch.
Proof.
  unfold readContent.
  destruct readfrom as [|line rest]; [reflexivity|].
  cbn [scan until_blank hd].
  destruct (String.eqb line "") eqn:B; [reflexivity|].
  cbn [Nat.eqb]. fold (columns line). rewrite Nat.eqb_refl. cbn [negb].
  rewrite scan_until_blank by apply columns_positive.
  cbn [forallb map app]. rewrite Nat.eqb_refl. reflexivity.
Qed.

Lemma readContent_done (readfrom : list string) (content : list Row) :
  readContent readfrom = Done content ->
  content = map Split (until_blank readfrom) /\
  Forall (fun line => columns line = columns (hd "" readfrom)) (until_blank readfrom).
Proof.
  rewrite readContent_cases.
  destruct (forallb _ (until_blank readfrom)) eqn:F; [|discriminate].
  intro H. inversion H. split; [reflexivity|].
  rewrite forallb_forall in F. apply Forall_forall. intros line I.
  symmetry. apply Nat.eqb_eq. now apply F.
Qed.

Lemma readContent_rows_uniform_aux (readfrom : list string) (content : list Row) :
  readContent readfrom = Done content ->
  Forall (fun row => List.length row = List.length (Split (hd "" readfrom))) content.
Proof.
  intro H. destruct (readContent_done _ H) as [-> U].
  apply Forall_map. exact U.
Qed.

(** X1.  The parse loses nothing of the texts it takes from the scanner:
    with [readfrom] the texts the scanner delivers, joining the fields of
    each returned row with commas gives back, one by one, the texts
    delivered in front of the first empty one.  Lines of the file that
    the scanner does not deliver are outside this statement. *)
Theorem readContent_round_trip (readfrom : list string) (content : list Row) :
  readContent readfrom = Done content ->
  map Join content = until_blank readfrom.
Proof.
  intro H. destruct (readContent_done _ H) as [-> _].
  rewrite map_map. rewrite <- (map_id (until_blank readfrom)) at 2.
  apply map_ext. apply Join_Split.
Qed.

Lemma readContent_round_trip_witness :
  readContent ["a,,b"; ",c,"; ""; "d"] = Done [["a"; ""; "b"]; [""; "c"; ""]] /\
  map Join [["a"; ""; "b"]; [""; "c"; ""]] = until_blank ["a,,b"; ",c,"; ""; "d"].
Proof.
  split; [reflexivity|].
  apply (@readContent_round_trip ["a,,b"; ",c,"; ""; "d"]). reflexivity.
Defined.

(** X2.  Every row the parse returns has the field count of the first
    line and at least one field, and the parse returns at most one row
    per line. *)
Theorem readContent_rows_uniform (readfrom : list string) (content : list Row) :
  readContent readfrom = Done content ->
  Forall (fun row => List.length row = columns (hd "" readfrom) /\
                     (1 <= List.length row)%nat) content /\
  (List.length content <= List.length readfrom)%nat.
Proof.
  intro H. destruct (readContent_done _ H) as [-> U]. split.
  - apply Forall_map. eapply Forall_impl; [|exact U]. cbv beta.
    intros line E. fold (columns line). rewrite E. split; [reflexivity|].
    pose proof (columns_positive (hd "" readfrom)). lia.
  - rewrite length_map. clear. induction readfrom as [|line rest IH]; simpl; [lia|].
    destruct (String.eqb line ""); simpl; lia.
Qed.

Lemma readContent_rows_uniform_witness :
  readContent ["a,1"; "b,2"; ""; "c"] = Done [["a"; "1"]; ["b"; "2"]] /\
  Forall (fun row => List.length row = columns (hd "" ["a,1"; "b,2"; ""; "c"]) /\
                     (1 <= List.length row)%nat) [["a"; "1"]; ["b"; "2"]] /\
  (List.length [["a"; "1"]; ["b"; "2"]] <= List.length ["a,1"; "b,2"; ""; "c"])%nat.
Proof.
  split; [reflexivity|].
  apply (@readContent_rows_uniform ["a,1"; "b,2"; ""; "c"]). reflexivity.
Defined.

(** X3.  In every row the parse returns no field holds a comma, and the
    row has one field more than its line has commas. *)
Theorem readContent_fields (readfrom : list string) (content : list Row) :
  readContent readfrom = Done content ->
  Forall (Forall (fun w => comma_free w = true)) content /\
  map (@List.length string) content
  = map (fun line => S (commas line)) (until_blank readfrom).
Proof.
  intro H. destruct (readContent_done _ H) as [-> _]. split.
  - apply Forall_map. apply Forall_forall. intros line _.
    apply Split_comma_free.
  - rewrite map_map. apply map_ext. apply columns_commas.
Qed.

Lemma readContent_fields_witness :
  readContent ["a,,b"; ",c,"] = Done [["a"; ""; "b"]; [""; "c"; ""]] /\
  Forall (Forall (fun w => comma_free w = true)) [["a"; ""; "b"]; [""; "c"; ""]] /\
  map (@List.length string) [["a"; ""; "b"]; [""; "c"; ""]]
  = map (fun line => S (commas line)) (until_blank ["a,,b"; ",c,"]).
Proof.
  split; [reflexivity|].
  apply (@readContent_fields ["a,,b"; ",c,"]). reflexivity.
Defined.

(** On rows of one length the field index is good for all or for none. *)
Lemma uniform_has_field (n : nat) (field : Z) (rows : list Row) :
  Forall (fun row => List.length row = n) rows ->
  rows <> [] ->
  forallb (has_field field) rows
  = ((0 <=? field)%Z && (field <? Z.of_nat n)%Z)%bool.
Proof.
  intro U. induction U as [|row rest E U IH]; intro N;
    [exfalso; apply N; reflexivity|].
  cbn [forallb]. unfold has_field at 1. rewrite E.
  destruct rest as [|row' rest']; [simpl; apply andb_true_r|].
  rewrite IH by discriminate. apply andb_diag.
Qed.

Lemma Forall_skipn_rows (P : Row -> Prop) (k : nat) (rows : list Row) :
  Forall P rows -> Forall P (skipn k rows).
Proof.
  intro F. rewrite <- (firstn_skipn k rows) in F.
  apply Forall_app in F. tauto.
Qed.

(** X4.  For a parsed file with at least one row, the configured field
    index is inside every row exactly when it is at least 0 and at most
    the number of commas of the first line. *)
Theorem field_index_checked_on_first_line (readfrom : list string)
    (content : list Row) (field : Z) :
  readContent readfrom = Done content ->
  content <> [] ->
  (forallb (has_field field) content = true <->
   (0 <= field <= Z.of_nat (commas (hd "" readfrom)))%Z).
Proof.
  intros H N.
  rewrite (uniform_has_field field (readContent_rows_uniform_aux _ H) N).
  fold (columns (hd "" readfrom)). rewrite columns_commas.
  rewrite andb_true_iff, Z.leb_le, Z.ltb_lt. lia.
Qed.

Lemma field_index_checked_on_first_line_witness :
  readContent ["a,1"; "b,2"] = Done [["a"; "1"]; ["b"; "2"]] /\
  [["a"; "1"]; ["b"; "2"]] <> [] /\
  (forallb (has_field 1) [["a"; "1"]; ["b"; "2"]] = true <->
   (0 <= 1 <= Z.of_nat (commas (hd "" ["a,1"; "b,2"])))%Z).
Proof.
  split; [reflexivity|]. split; [discriminate|].
  apply (@field_index_checked_on_first_line ["a,1"; "b,2"]);
    [reflexivity|discriminate].
Defined.

(** * Further properties: from the lines to the sorted rows *)

Section EndToEnd.

Context {sorter : SliceSorter}.

(** X5.  One input, comparison sort.  When the parse succeeds, the
    header row is there if header exclusion is set, and the field index
    is inside the first line, the emitter receives every parsed row
    exactly once, the rows in front of the header offset where they were,
    and behind it the rows in the configured order. *)
Theorem single_input_comparison_sort (readfrom : list string)
    (content : list Row) (header : bool) (field : Z) (reverse : bool) :
  readContent readfrom = Done content ->
  (offset header <= List.length content)%nat ->
  has_field field (Split (hd "" readfrom)) = true ->
  exists out,
    main_input readfrom header field reverse 1 = Done out /\
    Permutation content out /\
    List.length out = List.length content /\
    firstn (offset header) out = firstn (offset header) content /\
    adjacent (in_order reverse field) (skipn (offset header) out).
Proof.
  intros H L V.
  assert (V' : forallb (has_field field) (skipn (offset header) content) = true).
  { destruct (skipn (offset header) content) as [|r rs] eqn:E; [reflexivity|].
    rewrite <- E.
    rewrite (@uniform_has_field (List.length (Split (hd "" readfrom))) field).
    - exact V.
    - apply Forall_skipn_rows. exact (readContent_rows_uniform_aux _ H).
    - rewrite E. discriminate. }
  destruct (comparison_run content header field reverse [] L V')
    as (s & Hs & Ps & Ss).
  exists (firstn (offset header) content ++ s).
  unfold main_input. rewrite H. cbn [bind].
  assert (P : Permutation content (firstn (offset header) content ++ s)).
  { rewrite <- (firstn_skipn (offset header) content) at 1.
    now apply Permutation_app_head. }
  split; [exact Hs|]. split; [exact P|]. split; [|split].
  - symmetry. now apply Permutation_length.
  - rewrite firstn_app, length_firstn, Nat.min_l by assumption.
    rewrite Nat.sub_diag, firstn_firstn, Nat.min_id. cbn [firstn].
    apply app_nil_r.
  - rewrite skipn_firstn_app by assumption. now apply StronglySorted_adjacent.
Qed.

(** X6.  One input, tree sort, with at least two rows behind the header
    offset.  If the field index is inside the first line, the emitter
    receives exactly the rows behind the header offset, in ascending
    order of the field; otherwise the run dies on the index.  The
    reverse flag plays no part. *)
Theorem single_input_tree_sort (readfrom : list string) (content : list Row)
    (header : bool) (field : Z) (reverse : bool) :
  readContent readfrom = Done content ->
  (2 <= List.length (skipn (offset header) content))%nat ->
  if has_field field (Split (hd "" readfrom))
  then exists out,
         main_input readfrom header field reverse 2 = Done out /\
         Permutation (skipn (offset header) content) out /\
         StronglySorted (fun a b => field_leb field a b = true) out
  else main_input readfrom header field reverse 2 = Fatal IndexOutOfRange.
Proof.
  intros H L.
  unfold main_input. rewrite H. cbn [bind].
  rewrite sortContent_tree_many by assumption.
  rewrite (@uniform_has_field (List.length (Split (hd "" readfrom))) field).
  - fold (has_field field (Split (hd "" readfrom))).
    destruct (has_field field (Split (hd "" readfrom))) eqn:V; [|reflexivity].
    eexists. split; [reflexivity|]. cbn [app]. split.
    + apply tree_order_perm.
    + apply tree_order_ascending.
      rewrite (@uniform_has_field (List.length (Split (hd "" readfrom))) field).
      * exact V.
      * apply Forall_skipn_rows. exact (readContent_rows_uniform_aux _ H).
      * intro E. rewrite E in L. simpl in L. lia.
  - apply Forall_skipn_rows. exact (readContent_rows_uniform_aux _ H).
  - intro E. rewrite E in L. simpl in L. lia.
Qed.

End EndToEnd.

Lemma single_input_comparison_sort_witness :
  readContent ["id,val"; "b,1"; "a,2"; ""; "x"]
  = Done [["id"; "val"]; ["b"; "1"]; ["a"; "2"]] /\
  exists out,
    main_input (sorter := swapping_sorter)
      ["id,val"; "b,1"; "a,2"; ""; "x"] true 1 true 1 = Done out /\
    Permutation [["id"; "val"]; ["b"; "1"]; ["a"; "2"]] out /\
    List.length out = List.length [["id"; "val"]; ["b"; "1"]; ["a"; "2"]] /\
    firstn (offset true) out
    = firstn (offset true) [["id"; "val"]; ["b"; "1"]; ["a"; "2"]] /\
    adjacent (in_order true 1) (skipn (offset true) out).
Proof.
  split; [reflexivity|].
  apply (@single_input_comparison_sort swapping_sorter
           ["id,val"; "b,1"; "a,2"; ""; "x"]);
    [reflexivity|simpl; lia|reflexivity].
Defined.

Lemma single_input_tree_sort_witness :
  readContent ["id,val"; "b,1"; "a,2"] = Done [["id"; "val"]; ["b"; "1"]; ["a"; "2"]] /\
  (if has_field 1 (Split (hd "" ["id,val"; "b,1"; "a,2"]))
   then exists out,
          main_input (sorter := keeping_sorter)
            ["id,val"; "b,1"; "a,2"] true 1 true 2 = Done out /\
          Permutation (skipn (offset true) [["id"; "val"]; ["b"; "1"]; ["a"; "2"]]) out /\
          StronglySorted (fun a b => field_leb 1 a b = true) out
   else main_input (sorter := keeping_sorter)
          ["id,val"; "b,1"; "a,2"] true 1 true 2 = Fatal IndexOutOfRange).
Proof.
  split; [reflexivity|].
  apply (@single_input_tree_sort keeping_sorter ["id,val"; "b,1"; "a,2"]);
    [reflexivity|simpl; lia].
Defined.

(** * Further properties of the tree *)

Lemma index_done_key (field : Z) (row : Row) (k : string) :
  index row field = Done k -> key field row = k.
Proof. unfold key. intros ->. reflexivity. Qed.

Lemma index_done_has_field (field : Z) (row : Row) (k : string) :
  index row field = Done k -> has_field field row = true.
Proof.
  intro H. destruct (has_field field row) eqn:E; [reflexivity|].
  rewrite (index_without_field _ _ E) in H. discriminate.
Qed.

Lemma Node_insert_done (field : Z) (x : Row) (n : Node) :
  forall n', n <> nilNode -> Node_insert n x field = Done n' ->
             n' = grow field n x.
Proof.
  induction n as [|d l IHl r IHr]; intros n' N H; [congruence|].
  cbn [Node_insert grow] in *.
  destruct (index x field) as [kx|] eqn:Ex; [|discriminate].
  destruct (index d field) as [kd|] eqn:Ed; [|discriminate].
  cbn [bind] in H.
  rewrite (index_done_key _ _ Ex), (index_done_key _ _ Ed).
  destruct (String.leb kx kd).
  - destruct l as [|ld ll lr]; [inversion H; reflexivity|].
    destruct (Node_insert (mkNode ld ll lr) x field) as [l'|] eqn:El;
      [|discriminate].
    cbn [bind] in H. inversion H. f_equal. apply IHl; [discriminate|reflexivity].
  - destruct r as [|rd rl rr]; [inversion H; reflexivity|].
    destruct (Node_insert (mkNode rd rl rr) x field) as [r'|] eqn:Er;
      [|discriminate].
    cbn [bind] in H. inversion H. f_equal. apply IHr; [discriminate|reflexivity].
Qed.

Lemma Node_insert_fatal (field : Z) (x : Row) (n : Node) :
  forall e, Node_insert n x field = Fatal e -> e = IndexOutOfRange.
Proof.
  induction n as [|d l IHl r IHr]; intros e H; [discriminate|].
  cbn [Node_insert] in H.
  destruct (index x field) as [kx|e1] eqn:Ex;
    [|cbn [bind] in H; inversion H; subst; exact (index_fatal _ _ Ex)].
  destruct (index d field) as [kd|e2] eqn:Ed;
    [|cbn [bind] in H; inversion H; subst; exact (index_fatal _ _ Ed)].
  cbn [bind] in H.
  destruct (String.leb kx kd).
  - destruct l as [|ld ll lr]; [discriminate|].
    destruct (Node_insert (mkNode ld ll lr) x field) as [l'|e'] eqn:El;
      [discriminate|].
    cbn [bind] in H. inversion H; subst. now apply IHl.
  - destruct r as [|rd rl rr]; [discriminate|].
    destruct (Node_insert (mkNode rd rl rr) x field) as [r'|e'] eqn:Er;
      [discriminate|].
    cbn [bind] in H. inversion H; subst. now apply IHr.
Qed.

Lemma Tree_insert_done (field : Z) (x : Row) (t t' : Tree) :
  Tree_insert t x field = Done t' -> root t' = grow field (root t) x.
Proof.
  unfold Tree_insert. destruct (root t) as [|d l r] eqn:E.
  - intro H. inversion H. reflexivity.
  - destruct (Node_insert (mkNode d l r) x field) as [n'|] eqn:En; [|discriminate].
    cbn [bind]. intro H. inversion H. cbn [root].
    apply Node_insert_done; [discriminate|assumption].
Qed.

Lemma insert_all_done (field : Z) (rows : list Row) :
  forall t t', insert_all t rows field = Done t' ->
               root t' = fold_left (grow field) rows (root t).
Proof.
  induction rows as [|x rest IH]; intros t t' H; cbn [insert_all fold_left] in *.
  - inversion H. reflexivity.
  - destruct (Tree_insert t x field) as [t1|] eqn:E1; [|discriminate].
    cbn [bind] in H. rewrite (IH _ _ H), (Tree_insert_done _ _ _ E1). reflexivity.
Qed.

Lemma StronglySorted_app_rows (R : Row -> Row -> Prop) (l1 l2 : list Row) :
  StronglySorted R l1 -> StronglySorted R l2 ->
  (forall a b, In a l1 -> In b l2 -> R a b) ->
  StronglySorted R (l1 ++ l2).
Proof.
  intros S1 S2 C. induction S1 as [|a l1 S1 IH F]; [assumption|].
  cbn [app]. constructor.
  - apply IH. intros u v Hu Hv. apply C; simpl; auto.
  - apply Forall_app. split; [assumption|].
    apply Forall_forall. intros b Hb. apply C; simpl; auto.
Qed.

Lemma bst_inorder_sorted (field : Z) (n : Node) :
  bst field n ->
  StronglySorted (fun a b => String.leb (key field a) (key field b) = true)
                 (inorder n).
Proof.
  induction n as [|d l IHl r IHr]; cbn [bst inorder]; [constructor|].
  intros (Hl & Hr & Bl & Br).
  rewrite Forall_forall in Hl, Hr.
  assert (D : forall b, In b (inorder r) ->
                        String.leb (key field d) (key field b) = true).
  { intros b Hb. apply StrOrd.ltb_leb, StrOrd.leb_false_ltb. now apply Hr. }
  apply StronglySorted_app_rows; [now apply IHl| |].
  - constructor; [now apply IHr|]. apply Forall_forall. exact D.
  - intros a b Ha [<-|Hb]; [now apply Hl|].
    eapply StrOrd.leb_trans; [apply Hl; assumption|now apply D].
Qed.

(** X7.  One insertion into a search tree, when it succeeds, gives a
    search tree again; its in-order listing is the old one with the new
    row put in front of the first row whose key is not smaller, so it
    holds the old rows and the new one, each once. *)
Theorem Tree_insert_keeps_search_tree (t t' : Tree) (x : Row) (field : Z) :
  Tree_insert t x field = Done t' ->
  bst field (root t) ->
  bst field (root t') /\
  inorder (root t') = place field x (inorder (root t)) /\
  Permutation (inorder (root t')) (x :: inorder (root t)).
Proof.
  intros H B. rewrite (Tree_insert_done _ _ _ H).
  split; [now apply bst_grow|]. split; [now apply inorder_grow|].
  apply inorder_grow_perm.
Qed.

Lemma Tree_insert_keeps_search_tree_witness :
  let t := mkTree (mkNode ["m"] (mkNode ["c"] nilNode nilNode) nilNode) in
  let t' := mkTree (mkNode ["m"] (mkNode ["c"] nilNode (mkNode ["g"] nilNode nilNode))
                     nilNode) in
  bst 0 (root t') /\
  inorder (root t') = place 0 ["g"] (inorder (root t)) /\
  Permutation (inorder (root t')) (["g"] :: inorder (root t)).
Proof.
  intros t t'.
  apply (@Tree_insert_keeps_search_tree t t' ["g"] 0); [reflexivity|].
  cbn. repeat split; repeat constructor.
Defined.

(** X8.  The insertion loop, started on the empty tree: when it ends
    without a panic the tree is a search tree on the configured field, it
    holds exactly the rows inserted, and it is nil only when there was
    nothing to insert. *)
Theorem insert_all_builds_search_tree (rows : list Row) (field : Z) (t : Tree) :
  insert_all (mkTree nilNode) rows field = Done t ->
  bst field (root t) /\
  Permutation rows (inorder (root t)) /\
  (root t = nilNode <-> rows = []).
Proof.
  intro H. rewrite (insert_all_done _ _ _ H). cbn [root].
  destruct (fold_grow_inorder field rows nilNode I) as [B E].
  split; [exact B|]. split.
  - rewrite E. apply tree_order_perm.
  - split.
    + intro N. destruct rows as [|x rest]; [reflexivity|].
      exfalso. revert N. apply fold_grow_not_nil. left. discriminate.
    + intros ->. reflexivity.
Qed.

Lemma insert_all_builds_search_tree_witness :
  let t := mkTree (mkNode ["m"; "1"]
                     (mkNode ["c"; "2"] nilNode (mkNode ["m"; "3"] nilNode nilNode))
                     nilNode) in
  bst 0 (root t) /\
  Permutation [["m"; "1"]; ["c"; "2"]; ["m"; "3"]] (inorder (root t)) /\
  (root t = nilNode <-> [["m"; "1"]; ["c"; "2"]; ["m"; "3"]] = []).
Proof.
  intro t.
  apply (@insert_all_builds_search_tree [["m"; "1"]; ["c"; "2"]; ["m"; "3"]] 0 t).
  reflexivity.
Defined.

(** X9.  The traversal of a search tree whose rows all have the field
    leaves the prior result in front and appends the rows of the tree,
    each once, in ascending order of the field. *)
Theorem rewriteTree_lists_ascending (n : Node) (field : Z) (sorted : list Row) :
  n <> nilNode ->
  bst field n ->
  Forall (fun a => has_field field a = true) (inorder n) ->
  exists trav,
    rewriteTree n sorted = Done (sorted ++ trav) /\
    Permutation (inorder n) trav /\
    StronglySorted (fun a b => field_leb field a b = true) trav.
Proof.
  intros N B V. exists (inorder n).
  split; [now apply rewriteTree_inorder|]. split; [reflexivity|].
  eapply StronglySorted_weaken; [|apply bst_inorder_sorted; exact B].
  rewrite Forall_forall in V.
  intros a b Ha Hb H. rewrite field_leb_key; auto.
Qed.

Lemma rewriteTree_lists_ascending_witness :
  let n := mkNode ["m"] (mkNode ["c"] nilNode (mkNode ["g"] nilNode nilNode))
             (mkNode ["q"] nilNode nilNode) in
  exists trav,
    rewriteTree n [["z"]] = Done ([["z"]] ++ trav) /\
    Permutation (inorder n) trav /\
    StronglySorted (fun a b => field_leb 0 a b = true) trav.
Proof.
  intro n.
  apply (@rewriteTree_lists_ascending n 0 [["z"]]); [discriminate| |].
  - cbn. repeat split; repeat constructor.
  - cbn. repeat constructor.
Defined.

(** X10.  How one insertion fails.  The only failure is the index panic;
    it needs a tree that is not empty and a row, the new one or one in the
    tree, without the configured field.  On an empty tree the field is
    never read; on a tree that is not empty a new row without the field
    always fails. *)
Theorem Tree_insert_failure (t : Tree) (x : Row) (field : Z) :
  (forall e, Tree_insert t x field = Fatal e ->
             e = IndexOutOfRange /\ root t <> nilNode /\
             (has_field field x
              && forallb (has_field field) (inorder (root t)))%bool = false) /\
  (root t = nilNode ->
   Tree_insert t x field = Done (mkTree (mkNode x nilNode nilNode))) /\
  (root t <> nilNode -> has_field field x = false ->
   Tree_insert t x field = Fatal IndexOutOfRange).
Proof.
  split; [|split].
  - intros e H.
    assert (N : root t <> nilNode).
    { intro E. unfold Tree_insert in H. rewrite E in H. discriminate. }
    split; [|split; [exact N|]].
    + unfold Tree_insert in H. destruct (root t) as [|d l r]; [discriminate|].
      destruct (Node_insert (mkNode d l r) x field) as [|e'] eqn:En; [discriminate|].
      cbn [bind] in H. inversion H; subst. exact (Node_insert_fatal _ _ _ En).
    + destruct (has_field field x) eqn:Hx; [|reflexivity].
      destruct (forallb (has_field field) (inorder (root t))) eqn:Ht; [|reflexivity].
      apply Forall_forallb in Ht.
      rewrite (Tree_insert_grow _ _ _ Hx Ht) in H. discriminate.
  - intro E. unfold Tree_insert. rewrite E. reflexivity.
  - intros N Hx. unfold Tree_insert. destruct (root t) as [|d l r]; [congruence|].
    cbn [Node_insert]. rewrite (index_without_field _ _ Hx). reflexivity.
Qed.

Lemma Tree_insert_failure_witness :
  Tree_insert (mkTree nilNode) ["a"] 5 = Done (mkTree (mkNode ["a"] nilNode nilNode)) /\
  Tree_insert (mkTree (mkNode ["a"; "b"] nilNode nilNode)) ["c"] 1
  = Fatal IndexOutOfRange.
Proof.
  split.
  - apply (proj1 (proj2 (Tree_insert_failure (mkTree nilNode) ["a"] 5))).
    reflexivity.
  - apply (proj2 (proj2 (Tree_insert_failure
                           (mkTree (mkNode ["a"; "b"] nilNode nilNode)) ["c"] 1)));
      [discriminate|reflexivity].
Defined.

Lemma grow_right_spine (field : Z) (x : Row) (l : list Row) :
  Forall (fun a => String.leb (key field x) (key field a) = false) l ->
  grow field (right_spine l) x = right_spine (l ++ [x]).
Proof.
  intro F. induction F as [|a l Ha _ IH]; [reflexivity|].
  cbn [right_spine grow app]. rewrite Ha, IH. reflexivity.
Qed.

Lemma fold_grow_right_spine (field : Z) (rows : list Row) :
  StronglySorted (fun a b => String.ltb (key field a) (key field b) = true) rows ->
  fold_left (grow field) rows nilNode = right_spine rows.
Proof.
  induction rows as [|x rows IH] using rev_ind; intro S; [reflexivity|].
  apply StronglySorted_snoc_inv in S. destruct S as [S F].
  rewrite fold_left_app. cbn [fold_left]. rewrite IH by assumption.
  apply grow_right_spine. eapply Forall_impl; [|exact F]. cbv beta.
  intros a Ha. rewrite StrOrd.leb_ltb, Ha. reflexivity.
Qed.

Lemma height_right_spine (rows : list Row) :
  height (right_spine rows) = List.length rows.
Proof.
  induction rows as [|x rows IH]; [reflexivity|].
  cbn [right_spine height List.length]. rewrite IH. reflexivity.
Qed.

(** X11.  Nothing rebalances the tree: rows that arrive in strictly
    ascending order of the field are chained through the right children
    only, so the tree is as high as there are rows. *)
Theorem ascending_input_builds_a_chain (rows : list Row) (field : Z) :
  forallb (has_field field) rows = true ->
  StronglySorted (fun a b => field_ltb field a b = true) rows ->
  insert_all (mkTree nilNode) rows field = Done (mkTree (right_spine rows)) /\
  height (right_spine rows) = List.length rows.
Proof.
  intros V S. split; [|apply height_right_spine].
  rewrite insert_all_grow; [|now apply Forall_forallb|constructor].
  cbn [root]. rewrite fold_grow_right_spine; [reflexivity|].
  eapply StronglySorted_weaken; [|exact S].
  intros a b _ _. apply (strictly_in_order_less_key false).
Qed.

Lemma ascending_input_builds_a_chain_witness :
  insert_all (mkTree nilNode) [["a"]; ["b"]; ["c"]] 0
  = Done (mkTree (right_spine [["a"]; ["b"]; ["c"]])) /\
  height (right_spine [["a"]; ["b"]; ["c"]]) = List.length [["a"]; ["b"]; ["c"]].
Proof.
  apply (@ascending_input_builds_a_chain [["a"]; ["b"]; ["c"]] 0);
    [reflexivity|repeat constructor].
Defined.

(** * Further properties of the sort engine *)

Lemma strict_of_nodup (field : Z) (l : list Row) :
  StronglySorted (fun a b => String.leb (key field a) (key field b) = true) l ->
  NoDup (map (key field) l) ->
  StronglySorted (fun a b => String.ltb (key field a) (key field b) = true) l.
Proof.
  induction 1 as [|a l S IH F]; intro N; [constructor|].
  cbn [map] in N. inversion N as [|? ? Na Nl]; subst.
  constructor; [now apply IH|].
  rewrite Forall_forall in *. intros b Hb.
  specialize (F b Hb). rewrite StrOrd.leb_ltb in F.
  destruct (String.ltb (key field a) (key field b)) eqn:E; [reflexivity|].
  destruct (String.ltb (key field b) (key field a)) eqn:G; [discriminate|].
  exfalso. apply Na. rewrite (StrOrd.ltb_total _ _ E G).
  now apply in_map.
Qed.

Lemma StronglySorted_rev_rows (R : Row -> Row -> Prop) (l : list Row) :
  StronglySorted R l -> StronglySorted (fun a b => R b a) (rev l).
Proof.
  induction 1 as [|a l S IH F]; [constructor|].
  cbn [rev]. apply StronglySorted_app_rows; [assumption|repeat constructor|].
  rewrite Forall_forall in F.
  intros u v Hu [<-|[]]. apply F. now apply in_rev.
Qed.

Lemma forallb_false_row (f : Row -> bool) (l : list Row) :
  forallb f l = false -> exists x, In x l /\ f x = false.
Proof.
  induction l as [|a l IH]; [discriminate|].
  cbn [forallb]. destruct (f a) eqn:E.
  - intro H. destruct (IH H) as (x & I & Fx). exists x. simpl. auto.
  - intros _. exists a. simpl. auto.
Qed.

Section EngineMore.

Context {sorter : SliceSorter}.

Lemma tree_run (buff : list Row) (header : bool) (field : Z) (reverse : bool)
    (sorted : list Row) :
  skipn (offset header) buff <> [] ->
  forallb (has_field field) (skipn (offset header) buff) = true ->
  sortContent buff header field reverse 2 sorted
  = Done (sorted ++ tree_order field (skipn (offset header) buff)).
Proof.
  intros N V. rewrite sortContent_tree.
  destruct (skipn (offset header) buff) as [|x [|y rest]];
    cbv beta iota zeta; [congruence|reflexivity|].
  rewrite V. reflexivity.
Qed.

Lemma ascending_run_distinct (rows : list Row) (field : Z) :
  forallb (has_field field) rows = true ->
  NoDup (map (key field) rows) ->
  exists asc,
    Permutation rows asc /\
    StronglySorted (fun a b => String.ltb (key field a) (key field b) = true) asc /\
    sort_Slice (less false field) rows = Done asc.
Proof.
  intros V N.
  destruct (sort_Slice_rows false field rows V) as (s & Hs & Ps & Ss).
  exists s. split; [exact Ps|]. split; [|exact Hs].
  apply strict_of_nodup.
  - eapply StronglySorted_weaken; [|exact Ss]. cbv beta.
    intros a b _ _ H. unfold less_key in H. rewrite StrOrd.leb_ltb, H. reflexivity.
  - eapply Permutation_NoDup; [|exact N]. now apply Permutation_map.
Qed.

(** X12.  On rows that all have the field and carry pairwise different
    values of it, the two algorithms agree: what tree sort returns is
    what ascending comparison sort puts behind the rows in front of the
    header offset, whatever the reverse flag given to tree sort. *)
Theorem modes_agree_on_distinct_keys (buff : list Row) (header : bool)
    (field : Z) (reverse : bool) (sorted : list Row) :
  skipn (offset header) buff <> [] ->
  forallb (has_field field) (skipn (offset header) buff) = true ->
  NoDup (map (key field) (skipn (offset header) buff)) ->
  exists out,
    sortContent buff header field reverse 2 [] = Done out /\
    sortContent buff header field false 1 sorted
    = Done (firstn (offset header) buff ++ out).
Proof.
  intros E V N.
  exists (tree_order field (skipn (offset header) buff)).
  split; [now apply tree_run|].
  rewrite sortContent_compare.
  assert (L : (List.length buff <? offset header)%nat = false).
  { destruct (List.length buff <? offset header)%nat eqn:L; [|reflexivity].
    apply short_buffer in L. destruct L as [-> ->]. simpl in E. congruence. }
  rewrite L.
  destruct (@ascending_run_distinct _ field V N) as (asc & Pa & Sa & Ha).
  rewrite Ha. cbn [bind]. do 2 f_equal.
  apply (sorted_perm_unique (less_key_ordering false field)).
  - rewrite <- Pa. apply tree_order_perm.
  - exact Sa.
  - eapply StronglySorted_weaken; [|apply tree_order_sorted]. cbv beta.
    intros a b _ _ H. unfold less_key. rewrite StrOrd.leb_ltb in H.
    now apply negb_true_iff.
Qed.

(** X13.  Comparison sort on rows that all have the field and carry
    pairwise different values of it: with the reverse flag set the rows
    behind the header offset come out in exactly the reverse of the order
    they have with the flag unset. *)
Theorem reverse_flag_reverses (buff : list Row) (header : bool) (field : Z)
    (sorted : list Row) :
  (offset header <= List.length buff)%nat ->
  forallb (has_field field) (skipn (offset header) buff) = true ->
  NoDup (map (key field) (skipn (offset header) buff)) ->
  exists out,
    sortContent buff header field false 1 sorted
    = Done (firstn (offset header) buff ++ out) /\
    sortContent buff header field true 1 sorted
    = Done (firstn (offset header) buff ++ rev out).
Proof.
  intros L V N.
  destruct (@ascending_run_distinct _ field V N) as (asc & Pa & Sa & Ha).
  exists asc. rewrite !sortContent_compare.
  apply Nat.ltb_ge in L. rewrite L, Ha. cbn [bind].
  split; [reflexivity|].
  destruct (sort_Slice_rows true field _ V) as (s & Hs & Ps & Ss).
  rewrite Hs. cbn [bind]. do 2 f_equal. symmetry.
  apply (sorted_perm_unique (less_key_ordering true field)).
  - rewrite <- Ps, Pa. symmetry. apply Permutation_rev.
  - apply (StronglySorted_rev_rows Sa).
  - exact Ss.
Qed.

(** X14.  Tree sort with at least two rows behind the header offset dies
    exactly when one of these rows lacks the configured field, and then
    on the index panic; the rows need not have the same length. *)
Theorem tree_sort_dies_on_short_row (buff : list Row) (header : bool)
    (field : Z) (reverse : bool) (sorted : list Row) :
  (2 <= List.length (skipn (offset header) buff))%nat ->
  ((exists e, sortContent buff header field reverse 2 sorted = Fatal e) <->
   (exists row, In row (skipn (offset header) buff) /\
                has_field field row = false)) /\
  (forall e, sortContent buff header field reverse 2 sorted = Fatal e ->
             e = IndexOutOfRange).
Proof.
  intro L. rewrite sortContent_tree_many by assumption.
  destruct (forallb (has_field field) (skipn (offset header) buff)) eqn:V.
  - split; [split|]; [intros [e H]; discriminate| |intros e H; discriminate].
    intros (row & I & F). rewrite forallb_forall in V.
    rewrite (V row I) in F. discriminate.
  - split; [split|].
    + intros _. now apply forallb_false_row.
    + intros _. exists IndexOutOfRange. reflexivity.
    + intros e H. inversion H. reflexivity.
Qed.

(** X15.  The two modes treat the global result differently: tree sort
    appends its rows to whatever the result held before the call,
    comparison sort replaces it. *)
Theorem prior_result_appended_or_replaced (buff : list Row) (header : bool)
    (field : Z) (reverse : bool) (sorted : list Row) :
  sortContent buff header field reverse 2 sorted
  = (out <- sortContent buff header field reverse 2 [] ;; Done (sorted ++ out)) /\
  sortContent buff header field reverse 1 sorted
  = sortContent buff header field reverse 1 [].
Proof.
  split; [|rewrite !sortContent_compare; reflexivity].
  rewrite !sortContent_tree.
  destruct (skipn (offset header) buff) as [|x [|y rest]];
    cbv beta iota zeta; try reflexivity.
  destruct (forallb (has_field field) (x :: y :: rest)); reflexivity.
Qed.

End EngineMore.

Lemma modes_agree_on_distinct_keys_witness :
  exists out,
    sortContent (sorter := swapping_sorter)
      [["id"; "val"]; ["b"; "1"]; ["a"; "2"]; ["c"; "0"]] true 0 true 2 [] = Done out /\
    sortContent (sorter := swapping_sorter)
      [["id"; "val"]; ["b"; "1"]; ["a"; "2"]; ["c"; "0"]] true 0 false 1 [["z"]]
    = Done (firstn (offset true) [["id"; "val"]; ["b"; "1"]; ["a"; "2"]; ["c"; "0"]]
            ++ out).
Proof.
  apply (@modes_agree_on_distinct_keys swapping_sorter
           [["id"; "val"]; ["b"; "1"]; ["a"; "2"]; ["c"; "0"]] true 0 true [["z"]]).
  - discriminate.
  - reflexivity.
  - cbn. repeat constructor; cbn; intuition discriminate.
Defined.

Lemma reverse_flag_reverses_witness :
  exists out,
    sortContent (sorter := swapping_sorter)
      [["b"; "1"]; ["a"; "2"]; ["c"; "0"]] false 1 false 1 []
    = Done (firstn (offset false) [["b"; "1"]; ["a"; "2"]; ["c"; "0"]] ++ out) /\
    sortContent (sorter := swapping_sorter)
      [["b"; "1"]; ["a"; "2"]; ["c"; "0"]] false 1 true 1 []
    = Done (firstn (offset false) [["b"; "1"]; ["a"; "2"]; ["c"; "0"]] ++ rev out).
Proof.
  apply (@reverse_flag_reverses swapping_sorter
           [["b"; "1"]; ["a"; "2"]; ["c"; "0"]] false 1 []).
  - simpl. lia.
  - reflexivity.
  - cbn. repeat constructor; cbn; intuition discriminate.
Defined.

Lemma tree_sort_dies_on_short_row_witness :
  ((exists e, sortContent (sorter := keeping_sorter)
                [["a"; "1"]; ["b"]; ["c"; "3"]] false 1 false 2 [] = Fatal e) <->
   (exists row, In row (skipn (offset false) [["a"; "1"]; ["b"]; ["c"; "3"]]) /\
                has_field 1 row = false)) /\
  (forall e, sortContent (sorter := keeping_sorter)
               [["a"; "1"]; ["b"]; ["c"; "3"]] false 1 false 2 [] = Fatal e ->
             e = IndexOutOfRange).
Proof.
  apply (@tree_sort_dies_on_short_row keeping_sorter
           [["a"; "1"]; ["b"]; ["c"; "3"]] false 1 false []).
  simpl. lia.
Defined.

Lemma sort_engine_permutation_witness :
  (exists out,
      sortContent (sorter := swapping_sorter)
        [["id"; "val"]; ["b"; "1"]; ["b"; "2"]] true 0 false 1 [] = Done out /\
      Permutation [["id"; "val"]; ["b"; "1"]; ["b"; "2"]] out) /\
  (exists out,
      sortContent (sorter := swapping_sorter)
        [["id"; "val"]; ["b"; "1"]; ["b"; "2"]] true 0 false 2 [] = Done out /\
      Permutation (skipn (offset true) [["id"; "val"]; ["b"; "1"]; ["b"; "2"]]) out).
Proof.
  apply (@sort_engine_permutation swapping_sorter
           [["id"; "val"]; ["b"; "1"]; ["b"; "2"]] true 0 false []);
    [reflexivity|discriminate].
Defined.

(** * Further properties of directory mode *)

Module PipelineMore.

Import Pipeline PipelineNotions PipelineFacts.

Lemma dirs_app (p q : list goroutine) : dirs (p ++ q) = (dirs p + dirs q)%nat.
Proof. unfold dirs. rewrite filter_app, length_app. reflexivity. Qed.

Lemma dirs_cons (g : goroutine) (p : list goroutine) :
  dirs (g :: p) = ((if is_dir g then 1 else 0) + dirs p)%nat.
Proof. unfold dirs. cbn [filter]. destruct (is_dir g); reflexivity. Qed.

Lemma dirs_one p g g' p' :
  one p g g' p' ->
  (dirs p' + (if is_dir g then 1 else 0)
   = dirs p + (if is_dir g' then 1 else 0))%nat.
Proof.
  intros (l1 & l2 & -> & ->). rewrite !dirs_app, !dirs_cons. lia.
Qed.

Lemma dirs_two p s r s' r' p' :
  two p s r s' r' p' ->
  (dirs p' + (if is_dir s then 1 else 0) + (if is_dir r then 1 else 0)
   = dirs p + (if is_dir s' then 1 else 0) + (if is_dir r' then 1 else 0))%nat.
Proof.
  intros [(l1 & l2 & l3 & -> & ->)|(l1 & l2 & l3 & -> & ->)];
    rewrite !dirs_app, !dirs_cons, !dirs_app, !dirs_cons; lia.
Qed.

Lemma dirs_In (g : goroutine) (p : list goroutine) :
  In g p -> is_dir g = true -> (1 <= dirs p)%nat.
Proof.
  intros I D. apply in_split in I. destruct I as (l1 & l2 & ->).
  rewrite dirs_app, dirs_cons, D. lia.
Qed.

Lemma dirs_none (p : list goroutine) :
  Forall (fun g => is_dir g = false) p -> dirs p = 0%nat.
Proof.
  induction 1 as [|g p E _ IH]; [reflexivity|].
  rewrite dirs_cons, E, IH. reflexivity.
Qed.

Section Tidiness.

Variable disk : string -> option (list string).
Variable listing : outcome (list string).

Ltac by_offer H :=
  match type of H with
  | offer_of _ ?g = _ =>
      destruct g as [? [|? ?]|? ? [|? ?]|? ? [?|]| | | | | | |];
      simpl in H; try discriminate H; inversion H; subst; clear H
  end.

Lemma tidy_step (w w' : world) :
  starved 2 w -> tidy disk listing w -> step disk w w' -> tidy disk listing w'.
Proof.
  intros (F & M & W & C) (A & D & K & X) S.
  inversion S as
    [s r s' k kc c fn p' E Os Or Nc T
    |s r s' k kc c line p' E Os Or Nc T
    |r k kc c p' E Or Ic O
    |r k kc c p' E Or Ic O
    |g g' c p' E Og Nc O
    |g g' n p' E Og Wn O
    |g g' p' E Og W0 O
    |g E Ig Og
    |g c fn line g' E Ig Og Ic
    |g c g' E Ig Og Cc]; subst; unfold tidy; cbn [pool wg closed exited].
  - (* a name goes from the enumerator to a reader *)
    destruct (two_Forall T A) as (As & Ar & KA).
    pose proof (dirs_two T) as DT.
    by_offer Os. by_offer Or.
    cbn [accounted] in As, Ar. destruct As as [E1 I1].
    assert (R' : accounted disk listing
                   match open_and_read disk fn with
                   | Done content => G_readFiles (chan_at c) lines content
                   | Fatal e => G_fatal e
                   end /\
                 is_dir match open_and_read disk fn with
                        | Done content => G_readFiles (chan_at c) lines content
                        | Fatal e => G_fatal e
                        end = false).
    { destruct (open_and_read disk fn) as [content|e] eqn:Eo; cbn; split;
        try reflexivity; [exact Ar|].
      right. exists fn. split; [apply I1; simpl; auto|exact Eo]. }
    destruct R' as [R1 R2]. rewrite R2 in DT. cbn [is_dir] in DT.
    split; [|split; [|split]].
    + apply KA; [|exact R1]. cbn. split; [exact E1|].
      intros x Hx. apply I1. simpl. auto.
    + lia.
    + intros c0 Hc. destruct (K _ Hc) as [K1 K2]. split; [exact K1|lia].
    + discriminate.
  - (* no row changes hands *)
    destruct (two_Forall T F) as (Hs & Hr & _).
    by_offer Or; simpl in Hr; destruct Hr as [E1 E2]; try discriminate E1.
    inversion E1; subst.
    by_offer Os; simpl in Hs; [congruence|destruct Hs; discriminate].
  - (* a reader finds the names closed *)
    destruct (one_Forall O A) as (Ar & KA).
    pose proof (dirs_one O) as DO.
    by_offer Or. cbn [is_dir] in DO.
    split; [|split; [|split]].
    + apply KA. exact I.
    + lia.
    + intros c0 Hc. destruct (K _ Hc) as [K1 K2]. split; [exact K1|lia].
    + discriminate.
  - (* no receiver of rows finds its channel closed *)
    destruct (one_Forall O F) as (Hr & _).
    by_offer Or; simpl in Hr; destruct Hr as [E1 E2]; try discriminate E1.
    inversion E1; subst. contradiction.
  - (* the enumerator closes the names *)
    destruct (one_Forall O F) as (Hg & _).
    destruct (one_Forall O A) as (Ag & KA).
    pose proof (dirs_one O) as DO.
    by_offer Og; simpl in Hg; [|contradiction].
    cbn [accounted] in Ag. destruct Ag as [E1 _]. inversion E1; subst.
    cbn [is_dir] in DO.
    split; [|split; [|split]].
    + apply KA. exact I.
    + lia.
    + intros c0 [<-|Hc]; [split; [reflexivity|lia]|].
      destruct (K _ Hc) as [K1 K2]. split; [exact K1|lia].
    + discriminate.
  - destruct (one_Forall O F) as (Hg & _).
    by_offer Og. simpl in Hg. contradiction.
  - contradiction.
  - (* log.Fatal ends the process *)
    split; [exact A|]. split; [exact D|]. split; [exact K|].
    intros _. by_offer Og. eexists. exact Ig.
  - (* nothing is sent on a closed channel *)
    exfalso. destruct (K _ Ic) as [-> D0].
    rewrite Forall_forall in A, F.
    pose proof (A _ Ig) as Ag. pose proof (F _ Ig) as Hg.
    destruct Og as [Og|Og]; by_offer Og.
    + pose proof (dirs_In _ _ Ig eq_refl). lia.
    + cbn [accounted] in Ag. destruct Ag as (i & Ei & Li).
      inversion Ei; subst. lia.
    + simpl in Hg. destruct Hg. discriminate.
  - (* nothing is closed twice, and no nil channel is closed *)
    exfalso. rewrite Forall_forall in A, F.
    pose proof (A _ Ig) as Ag. pose proof (F _ Ig) as Hg.
    by_offer Og; [|simpl in Hg; contradiction].
    cbn [accounted] in Ag. destruct Ag as [E1 _]. subst.
    destruct Cc as [Cc|(i & Ei & Ii)]; [discriminate|].
    inversion Ei; subst. destruct (K _ Ii) as [_ D0].
    pose proof (dirs_In _ _ Ig eq_refl). lia.
Qed.

Lemma step_running (w w' : world) : step disk w w' -> exited w = false.
Proof. intro S. inversion S; assumption. Qed.

Lemma tidy_neat (w : world) : tidy disk listing w -> neat disk listing w.
Proof. intros (A & D & K & _). split; [exact A|]. split; [exact D|exact K]. Qed.

Lemma neat_tidy (w : world) :
  exited w = false -> neat disk listing w -> tidy disk listing w.
Proof.
  intros E (A & D & K). split; [exact A|]. split; [exact D|].
  split; [exact K|]. rewrite E. discriminate.
Qed.

(** Signals leave the goroutines and the channels alone. *)
Lemma kept_run (w w' : world) (ev : event) :
  starved 2 w -> neat disk listing w -> run disk w ev w' ->
  starved 2 w' /\ neat disk listing w'.
Proof.
  intros S N R. destruct R as [w' St|s E].
  - pose proof (step_running St) as E. split.
    + eapply starved_step; eassumption.
    + apply tidy_neat. eapply tidy_step; [exact S| |exact St].
      now apply neat_tidy.
  - split; [exact S|exact N].
Qed.

Lemma kept_runs (w0 w : world) :
  starved 2 w0 -> neat disk listing w0 -> runs disk w0 w ->
  starved 2 w /\ neat disk listing w.
Proof.
  intros S0 N0 R. induction R as [|w ev w' R [S N] St]; [now split|].
  eapply kept_run; eassumption.
Qed.

(** No goroutine stands at a send on a closed channel. *)
Lemma sends_name_open (w : world) (g g' : goroutine) (i : nat) (fn : string) :
  starved 2 w -> neat disk listing w -> In g (pool w) ->
  offer_of disk g = SendName (chan_at i) fn g' -> ~ In i (closed w).
Proof.
  intros (F & _) (A & D & K) Ig Og Ic.
  destruct (K _ Ic) as [-> D0].
  by_offer Og. pose proof (dirs_In _ _ Ig eq_refl). lia.
Qed.

Lemma sends_line_open (w : world) (g g' : goroutine) (i : nat) (line : Row) :
  starved 2 w -> neat disk listing w -> In g (pool w) ->
  offer_of disk g = SendLine (chan_at i) line g' -> ~ In i (closed w).
Proof.
  intros (F & _) (A & D & K) Ig Og Ic.
  destruct (K _ Ic) as [-> D0].
  rewrite Forall_forall in A, F.
  pose proof (A _ Ig) as Ag. pose proof (F _ Ig) as Hg.
  by_offer Og.
  - cbn [accounted] in Ag. destruct Ag as (i & Ei & Li).
    inversion Ei; subst. lia.
  - simpl in Hg. destruct Hg. discriminate.
Qed.

(** A goroutine that stands at a close has a channel that was made and
    is still open. *)
Lemma closes_open (w : world) (g g' : goroutine) (c : chan) :
  starved 2 w -> neat disk listing w -> In g (pool w) ->
  offer_of disk g = CloseChan c g' ->
  exists i, c = chan_at i /\ ~ In i (closed w).
Proof.
  intros (F & _) (A & D & K) Ig Og.
  rewrite Forall_forall in A, F.
  pose proof (A _ Ig) as Ag. pose proof (F _ Ig) as Hg.
  by_offer Og; [|simpl in Hg; contradiction].
  cbn [accounted] in Ag. destruct Ag as [E1 _]. subst.
  exists 1%nat. split; [reflexivity|]. intro Ic.
  destruct (K _ Ic) as [_ D0].
  pose proof (dirs_In _ _ Ig eq_refl). lia.
Qed.

End Tidiness.

Lemma reachable_runs (disk : string -> option (list string)) (w0 w : world) :
  reachable disk w0 w -> runs disk w0 w.
Proof.
  induction 1 as [|w w' _ IH S]; [apply runs_start|].
  eapply runs_on; [exact IH|]. apply run_goroutines. exact S.
Qed.

Lemma readFiles_fold_added (Q : goroutine -> Prop) (k : nat) (fnames : chan)
    (lines : list chan) :
  (forall i, (k <= i)%nat -> Q (G_readFiles fnames (chan_at i) [])) ->
  forall w,
    (k <= fresh w)%nat ->
    let w' := fold_left (fun w ch => readFiles fnames ch w) lines w in
    exists added, pool w' = pool w ++ added /\ Forall Q added /\
                  closed w' = closed w /\ exited w' = exited w.
Proof.
  intro HQ. induction lines as [|ch lines IH]; intros w L; cbn [fold_left].
  - exists []. rewrite app_nil_r. auto.
  - destruct (IH (readFiles fnames ch w)) as (added & P & FQ & C & X);
      [cbn; lia|].
    exists (G_readFiles fnames (chan_at (fresh w)) [] :: added).
    split; [rewrite P; cbn; rewrite <- app_assoc; reflexivity|].
    split; [constructor; [now apply HQ|assumption]|].
    split; assumption.
Qed.

Lemma forwarders_fold_added (Q : goroutine -> Prop) (allLines : chan)
    (lines : list chan) :
  (forall ch, Q (G_forward ch allLines None)) ->
  forall w,
    let w' := fold_left (fun w ch => go (G_forward ch allLines None) (wg_Add w))
                        lines w in
    exists added, pool w' = pool w ++ added /\ Forall Q added /\
                  closed w' = closed w /\ exited w' = exited w.
Proof.
  intro HQ. induction lines as [|ch lines IH]; intro w; cbn [fold_left].
  - exists []. rewrite app_nil_r. auto.
  - destruct (IH (go (G_forward ch allLines None) (wg_Add w)))
      as (added & P & FQ & C & X).
    exists (G_forward ch allLines None :: added).
    split; [rewrite P; cbn; rewrite <- app_assoc; reflexivity|].
    split; [constructor; [apply HQ|assumption]|].
    split; assumption.
Qed.

Lemma main_with_tidy (disk : string -> option (list string))
    (listing : outcome (list string)) (n : nat) :
  tidy disk listing (main_with n listing).
Proof.
  rewrite main_with_unfold.
  set (Q := fun g => accounted disk listing g /\ is_dir g = false).
  set (w2 := mkWorld 3 _ [] 0 false).
  destruct (@readFiles_fold_added Q 3 (chan_at 1) (repeat nil_chan n)) with (w := w2)
    as (readers & P3 & Q3 & C3 & X3).
  { intros i Li. split; [|reflexivity]. cbn. exists i. auto. }
  { cbn. lia. }
  set (w3 := fold_left _ _ w2) in *.
  destruct (@forwarders_fold_added Q (chan_at 2) (repeat nil_chan n)) with (w := w3)
    as (forwarders & P4 & Q4 & C4 & X4).
  { intro ch. split; reflexivity. }
  set (w4 := fold_left _ _ w3) in *.
  assert (QA : forall l, Forall Q l -> Forall (accounted disk listing) l).
  { intros l F. eapply Forall_impl; [|exact F]. intros g [H _]. exact H. }
  assert (QD : forall l, Forall Q l -> dirs l = 0%nat).
  { intros l F. apply dirs_none. eapply Forall_impl; [|exact F].
    intros g [_ H]. exact H. }
  unfold tidy. cbn [go pool closed exited].
  rewrite P4, P3, C4, C3, X4, X3. subst w2. cbn [pool closed exited].
  split; [|split; [|split]].
  - repeat (apply Forall_app; split); auto; [|repeat constructor..].
    constructor; [|constructor].
    destruct listing as [files|e]; cbn; [split; [reflexivity|apply incl_refl]|auto].
  - rewrite !dirs_app, (QD _ Q3), (QD _ Q4), !dirs_cons. cbn [is_dir dirs filter List.length].
    destruct listing; cbn; lia.
  - intros c [].
  - discriminate.
Qed.

(** X17.  Directory mode with at least one reader, in every state the
    process reaches by steps of its goroutines and by signals arriving:
    no goroutine stands at a send on a closed channel; a goroutine that
    stands at a close has a channel that was made and is not yet closed,
    so no nil channel is closed and none is closed twice; a goroutine
    that stands at [log.Fatal] is there because the directory could not
    be listed, or because a listed file could not be opened or its parse
    died.  When the program ends the process, it is either by a step of
    the goroutines, and some goroutine stands at [log.Fatal] for such a
    failure, or by a signal handed to [handler], and the signal is
    SIGTERM or SIGINT, at which [handler] calls [os.Exit(0)]. *)
Theorem directory_mode_never_panics_on_a_channel
    (disk : string -> option (list string)) (listing : outcome (list string))
    (n : nat) (w : world) :
  n <> 0%nat ->
  runs disk (main_with n listing) w ->
  (forall g i fn g',
     In g (pool w) -> offer_of disk g = SendName (chan_at i) fn g' ->
     ~ In i (closed w)) /\
  (forall g i line g',
     In g (pool w) -> offer_of disk g = SendLine (chan_at i) line g' ->
     ~ In i (closed w)) /\
  (forall g c g',
     In g (pool w) -> offer_of disk g = CloseChan c g' ->
     exists i, c = chan_at i /\ ~ In i (closed w)) /\
  (forall e, In (G_fatal e) (pool w) -> read_failure disk listing e) /\
  (forall ev w', run disk w ev w' -> exited w' = true ->
     match ev with
     | Internal =>
         exists e, In (G_fatal e) (pool w) /\ read_failure disk listing e
     | Signal s => (s = SIGTERM \/ s = SIGINT) /\ snd (handler s) = Some 0%Z
     end).
Proof.
  intros N R.
  destruct (kept_runs (main_with_starved listing N)
              (tidy_neat (main_with_tidy disk listing n)) R) as [S T].
  assert (P1 : forall g i fn g',
             In g (pool w) -> offer_of disk g = SendName (chan_at i) fn g' ->
             ~ In i (closed w)).
  { intros g i fn g' Ig Og. eapply sends_name_open; eassumption. }
  assert (P2 : forall g i line g',
             In g (pool w) -> offer_of disk g = SendLine (chan_at i) line g' ->
             ~ In i (closed w)).
  { intros g i line g' Ig Og. eapply sends_line_open; eassumption. }
  assert (P3 : forall g c g',
             In g (pool w) -> offer_of disk g = CloseChan c g' ->
             exists i, c = chan_at i /\ ~ In i (closed w)).
  { intros g c g' Ig Og. eapply closes_open; eassumption. }
  assert (P4 : forall e, In (G_fatal e) (pool w) -> read_failure disk listing e).
  { intros e I. destruct T as (A & _). rewrite Forall_forall in A.
    exact (A _ I). }
  split; [exact P1|]. split; [exact P2|]. split; [exact P3|].
  split; [exact P4|].
  intros ev w' St X. destruct St as [w' St'|s E].
  - inversion St' as
      [? ? ? ? ? ? ? ? ? ? ? ? ?
      |? ? ? ? ? ? ? ? ? ? ? ? ?
      |? ? ? ? ? ? ? ? ?
      |? ? ? ? ? ? ? ? ?
      |? ? ? ? ? ? ? ?
      |? ? ? ? ? ? ? ?
      |? ? ? ? ? ? ?
      |g E Ig Og
      |g c fn line g' E Ig Og Ic
      |g c g' E Ig Og Cc]; subst; cbn [exited] in X; try discriminate X.
    + destruct g; simpl in Og; try discriminate Og.
      * destruct files; discriminate Og.
      * destruct content; discriminate Og.
      * destruct line; discriminate Og.
      * eexists. split; [exact Ig|exact (P4 _ Ig)].
    + exfalso. destruct Og as [Og|Og].
      * exact (P1 _ _ _ _ Ig Og Ic).
      * exact (P2 _ _ _ _ Ig Og Ic).
    + exfalso. destruct (P3 _ _ _ Ig Og) as (i & -> & Ni).
      destruct Cc as [Cc|(j & Ej & Ij)]; [discriminate Cc|].
      inversion Ej; subst. contradiction.
  - cbn [exited] in X. destruct s as [| |name]; cbn in X |- *;
      [split; [left|]; reflexivity|split; [right|]; reflexivity|discriminate X].
Qed.

(** A state of the scenario with a file that cannot be opened: the
    enumerator has handed out "f1" and "nope", the reader of "nope" has
    called [log.Fatal], and the process has ended. *)
Lemma reader_fails_to_open :
  reachable three_files (main_dir (Done ["f1"; "nope"]))
    (mkWorld 6
       [G_readDir (chan_at 1) [];
        G_readFiles (chan_at 1) (chan_at 3) [["a"; "1"]; ["b"; "2"]];
        G_fatal IOFailure;
        G_readFiles (chan_at 1) (chan_at 5) [];
        G_forward nil_chan (chan_at 2) None;
        G_forward nil_chan (chan_at 2) None;
        G_forward nil_chan (chan_at 2) None;
        G_wait (chan_at 2);
        G_main (chan_at 2) []]
       [] 3 true).
Proof.
  set (tail := [G_forward nil_chan (chan_at 2) None;
                G_forward nil_chan (chan_at 2) None;
                G_forward nil_chan (chan_at 2) None;
                G_wait (chan_at 2);
                G_main (chan_at 2) []]).
  set (w1 := mkWorld 6
       (G_readDir (chan_at 1) ["nope"]
        :: G_readFiles (chan_at 1) (chan_at 3) [["a"; "1"]; ["b"; "2"]]
        :: G_readFiles (chan_at 1) (chan_at 4) []
        :: G_readFiles (chan_at 1) (chan_at 5) [] :: tail) [] 3 false).
  set (w2 := mkWorld 6
       (G_readDir (chan_at 1) []
        :: G_readFiles (chan_at 1) (chan_at 3) [["a"; "1"]; ["b"; "2"]]
        :: G_fatal IOFailure
        :: G_readFiles (chan_at 1) (chan_at 5) [] :: tail) [] 3 false).
  assert (R1 : reachable three_files (main_dir (Done ["f1"; "nope"])) w1).
  { eapply reach_step; [apply reach_start|].
    eapply (@step_name three_files (main_dir (Done ["f1"; "nope"]))
              (G_readDir (chan_at 1) ["f1"; "nope"])
              (G_readFiles (chan_at 1) (chan_at 3) [])
              _ _ _ 1 "f1");
      try reflexivity; [simpl; tauto|].
    left. exists [], []. eexists. split; reflexivity. }
  assert (R2 : reachable three_files (main_dir (Done ["f1"; "nope"])) w2).
  { eapply reach_step; [exact R1|].
    eapply (@step_name three_files w1
              (G_readDir (chan_at 1) ["nope"])
              (G_readFiles (chan_at 1) (chan_at 4) [])
              _ _ _ 1 "nope");
      try reflexivity; [simpl; tauto|].
    left. exists [], [G_readFiles (chan_at 1) (chan_at 3) [["a"; "1"]; ["b"; "2"]]].
    eexists. split; reflexivity. }
  eapply reach_step; [exact R2|].
  eapply (@step_exit three_files w2 (G_fatal IOFailure));
    [reflexivity|simpl; tauto|reflexivity].
Qed.

Lemma directory_mode_never_panics_on_a_channel_witness :
  let disk := three_files in
  let listing := Done ["f1"; "nope"] in
  let w := mkWorld 6
       [G_readDir (chan_at 1) [];
        G_readFiles (chan_at 1) (chan_at 3) [["a"; "1"]; ["b"; "2"]];
        G_fatal IOFailure;
        G_readFiles (chan_at 1) (chan_at 5) [];
        G_forward nil_chan (chan_at 2) None;
        G_forward nil_chan (chan_at 2) None;
        G_forward nil_chan (chan_at 2) None;
        G_wait (chan_at 2);
        G_main (chan_at 2) []]
       [] 3 true in
  (forall g i fn g',
     In g (pool w) -> offer_of disk g = SendName (chan_at i) fn g' ->
     ~ In i (closed w)) /\
  (forall g i line g',
     In g (pool w) -> offer_of disk g = SendLine (chan_at i) line g' ->
     ~ In i (closed w)) /\
  (forall g c g',
     In g (pool w) -> offer_of disk g = CloseChan c g' ->
     exists i, c = chan_at i /\ ~ In i (closed w)) /\
  (forall e, In (G_fatal e) (pool w) -> read_failure disk listing e) /\
  (forall ev w', run disk w ev w' -> exited w' = true ->
     match ev with
     | Internal =>
         exists e, In (G_fatal e) (pool w) /\ read_failure disk listing e
     | Signal s => (s = SIGTERM \/ s = SIGINT) /\ snd (handler s) = Some 0%Z
     end).
Proof.
  intros disk listing w.
  apply (@directory_mode_never_panics_on_a_channel disk listing 3 w).
  - discriminate.
  - apply reachable_runs. exact reader_fails_to_open.
Defined.

End PipelineMore.

(** * Further properties: the hand-over of one input and the emitter *)

Module SingleInputFacts.

Import SingleInput.

Lemma step_keeps_rows (content : list Row) (s s' : state) :
  buff s ++ pending s = content /\
  (closed s = true -> pending s = []) /\
  (receiving s = false -> closed s = true) ->
  step s s' ->
  buff s' ++ pending s' = content /\
  (closed s' = true -> pending s' = []) /\
  (receiving s' = false -> closed s' = true).
Proof.
  intros (E & C & R) S. destruct S as [line rest b|b r|p b]; cbn in *.
  - rewrite <- app_assoc. cbn. repeat split; auto; discriminate.
  - repeat split; auto.
  - repeat split; auto.
Qed.

Lemma run_to_the_end (pending0 b : list Row) :
  reachable (mkState pending0 false b true) (mkState [] true (b ++ pending0) false).
Proof.
  assert (G : forall p acc s0,
             reachable s0 (mkState p false acc true) ->
             reachable s0 (mkState [] true (acc ++ p) false)).
  { induction p as [|line rest IH]; intros acc s0 R.
    - rewrite app_nil_r.
      eapply reach_step; [eapply reach_step; [exact R|]|]; constructor.
    - replace (acc ++ line :: rest) with ((acc ++ [line]) ++ rest)
        by (rewrite <- app_assoc; reflexivity).
      apply IH. eapply reach_step; [exact R|]. constructor. }
  apply G. constructor.
Qed.

(** X18.  One input: the rows pass from [input] to the buffer of
    [sortContent] in their order and each once.  At every moment the
    buffer followed by the rows still to send is the parsed content; the
    receive loop is left only with the whole content in the buffer; it
    can always be left; and as long as it is not left a next step exists. *)
Theorem input_is_received_in_order (content : list Row) (s : state) :
  reachable (input content) s ->
  buff s ++ pending s = content /\
  (receiving s = false -> buff s = content) /\
  reachable s (mkState [] true content false) /\
  (receiving s = true -> exists s', step s s').
Proof.
  intro R.
  assert (I : buff s ++ pending s = content /\
              (closed s = true -> pending s = []) /\
              (receiving s = false -> closed s = true)).
  { induction R as [|s s' R IH S].
    - cbn. repeat split; auto; discriminate.
    - eapply step_keeps_rows; eassumption. }
  destruct I as (E & C & L).
  destruct s as [p c b r]. cbn in *.
  split; [exact E|]. split; [|split].
  - intro F. rewrite (C (L F)), app_nil_r in E. exact E.
  - destruct c.
    + rewrite (C eq_refl), app_nil_r in *. subst b. destruct r.
      * eapply reach_step; [apply reach_start|]. constructor.
      * apply reach_start.
    + destruct r; [|specialize (L eq_refl); discriminate].
      subst content. apply run_to_the_end.
  - intros ->. destruct c.
    + eexists. apply leave_loop.
    + destruct p as [|line rest]; eexists; constructor.
Qed.

Lemma input_is_received_in_order_witness :
  let s := mkState [["c"]] false [["a"]; ["b"]] true in
  buff s ++ pending s = [["a"]; ["b"]; ["c"]] /\
  (receiving s = false -> buff s = [["a"]; ["b"]; ["c"]]) /\
  reachable s (mkState [] true [["a"]; ["b"]; ["c"]] false) /\
  (receiving s = true -> exists s', step s s').
Proof.
  intro s.
  apply (@input_is_received_in_order [["a"]; ["b"]; ["c"]] s).
  eapply reach_step; [eapply reach_step; [apply reach_start|]|];
    [apply (hand_over ["a"] [["b"]; ["c"]] [])
    |apply (hand_over ["b"] [["c"]] [["a"]])].
Defined.

End SingleInputFacts.

Lemma append_assoc (a b c : string) :
  String.append (String.append a b) c = String.append a (String.append b c).
Proof. induction a as [|ch a IH]; cbn; [reflexivity|]. now rewrite IH. Qed.

Lemma spaced_joins_fields (r1 r2 : list string) (x y : string) :
  spaced (r1 ++ x :: y :: r2)
  = spaced (r1 ++ String.append x (String " "%char y) :: r2).
Proof.
  induction r1 as [|w r1 IH].
  - cbn [app spaced]. destruct r2 as [|z r2]; [reflexivity|].
    rewrite append_assoc. reflexivity.
  - cbn [app]. cbn [spaced].
    destruct r1 as [|w' r1']; cbn [app] in *.
    + f_equal. f_equal. exact IH.
    + f_equal. f_equal. exact IH.
Qed.

(** X19.  The emitter blurs the fields: a row with two neighbouring
    fields [x] and [y] is written, to the file or to the standard output,
    exactly like the row in which they are the single field [x y], though
    the two collections differ. *)
Theorem output_blurs_fields (o_passed : bool) (outputFileName : string)
    (creatable : bool) (l1 l2 : list Row) (r1 r2 : list string) (x y : string) :
  output o_passed outputFileName creatable (l1 ++ (r1 ++ x :: y :: r2) :: l2)
  = output o_passed outputFileName creatable
      (l1 ++ (r1 ++ String.append x (String " "%char y) :: r2) :: l2) /\
  l1 ++ (r1 ++ x :: y :: r2) :: l2
  <> l1 ++ (r1 ++ String.append x (String " "%char y) :: r2) :: l2.
Proof.
  split.
  - assert (E : show (l1 ++ (r1 ++ x :: y :: r2) :: l2)
                = show (l1 ++ (r1 ++ String.append x (String " "%char y) :: r2) :: l2)).
    { unfold show. rewrite !map_app. cbn [map]. unfold show_row at 2 5.
      rewrite spaced_joins_fields. reflexivity. }
    unfold output. rewrite E. reflexivity.
  - intro H. apply app_inv_head in H. inversion H as [H1].
    apply (f_equal (@List.length string)) in H1.
    rewrite !length_app in H1. cbn in H1. lia.
Qed.

(** * Further properties of the parser: from rows to lines and back *)

Lemma comma_free_cons (c : ascii) (w : string) :
  comma_free (String c w) = true ->
  Ascii.eqb c ","%char = false /\ comma_free w = true.
Proof.
  unfold comma_free. cbn [commas].
  destruct (Ascii.eqb c ","%char); [discriminate|auto].
Qed.

Lemma Split_comma_free_word (w : string) :
  comma_free w = true -> Split w = [w].
Proof.
  induction w as [|c w IH]; intro F; [reflexivity|].
  apply comma_free_cons in F. destruct F as [E F].
  cbn [Split]. rewrite E, (IH F). reflexivity.
Qed.

Lemma Split_word_comma (w s : string) :
  comma_free w = true ->
  Split (String.append w (String ","%char s)) = w :: Split s.
Proof.
  induction w as [|c w IH]; intro F; [reflexivity|].
  apply comma_free_cons in F. destruct F as [E F].
  cbn [String.append Split]. rewrite E, (IH F). reflexivity.
Qed.

Lemma Split_Join (row : Row) :
  row <> [] -> Forall (fun w => comma_free w = true) row ->
  Split (Join row) = row.
Proof.
  intros N F. induction F as [|w rest Hw F IH]; [congruence|].
  cbn [Join]. destruct rest as [|v rest'].
  - now apply Split_comma_free_word.
  - rewrite Split_word_comma by assumption. f_equal.
    apply IH. discriminate.
Qed.

Lemma Join_not_blank (row : Row) :
  row <> [] -> row <> [""] -> String.eqb (Join row) "" = false.
Proof.
  intros N B. apply String.eqb_neq. intro E.
  destruct row as [|w [|v rest]]; [congruence| |].
  - cbn [Join] in E. subst w. congruence.
  - cbn [Join] in E. destruct w; discriminate.
Qed.

(** X20.  [Split] undoes [Join] inside the parse.  Take rows of one
    length, with at least one field, without commas in their fields, and
    none of them the single empty field.  When the texts the scanner
    delivers are these rows, each with its fields joined by commas, the
    parse returns exactly these rows.  Whether a file can make the
    scanner deliver such texts is not part of the statement. *)
Theorem readContent_inverts_Join (rows : list Row) (n : nat) :
  n <> 0%nat ->
  Forall (fun row => List.length row = n) rows ->
  Forall (Forall (fun w => comma_free w = true)) rows ->
  Forall (fun row => row <> [""]) rows ->
  readContent (map Join rows) = Done rows.
Proof.
  intros N L F B.
  assert (NE : Forall (fun row => row <> []) rows).
  { eapply Forall_impl; [|exact L]. cbv beta. intros row E ->. cbn in E. congruence. }
  assert (U : until_blank (map Join rows) = map Join rows).
  { clear L F. induction rows as [|row rest IH]; [reflexivity|].
    inversion B; subst. inversion NE; subst.
    cbn [map until_blank]. rewrite Join_not_blank by assumption.
    f_equal. now apply IH. }
  assert (S : map Split (map Join rows) = rows).
  { rewrite map_map. rewrite <- (map_id rows) at 2.
    apply map_ext_in. intros row I. rewrite Forall_forall in NE, F.
    apply Split_Join; auto. }
  assert (C : forall row, In row rows -> columns (Join row) = n).
  { intros row I. rewrite Forall_forall in NE, F, L. unfold columns.
    rewrite Split_Join; auto. }
  rewrite readContent_cases, U, S.
  replace (forallb _ (map Join rows)) with true; [reflexivity|].
  symmetry. apply forallb_forall. intros line I.
  apply in_map_iff in I. destruct I as (row & <- & I).
  apply Nat.eqb_eq. rewrite (C row I).
  destruct rows as [|row0 rest]; [contradiction|].
  cbn [map hd]. apply C. simpl. auto.
Qed.

Lemma readContent_inverts_Join_witness :
  readContent (map Join [["a"; ""; "b c"]; [""; "d"; ""]])
  = Done [["a"; ""; "b c"]; [""; "d"; ""]].
Proof.
  apply (@readContent_inverts_Join [["a"; ""; "b c"]; [""; "d"; ""]] 3).
  - discriminate.
  - repeat constructor.
  - repeat constructor.
  - repeat constructor; discriminate.
Defined.
